(** * An LRU cache with TTL expiry: the cache engine of [main.go]

    The engine of [main.go] is a Go struct holding a map from keys to
    [*cacheValue] and a [container/list] doubly linked list of
    [*lruQueueItem]; every stored value keeps a pointer ([link]) to its
    own list element.  This development embeds the engine as pure
    functions over an explicit cache state and proves the properties the
    specification states about it.

    Modelling choices, all read off the source:
    - the map [values] is a [gmap]; keys are any type with decidable
      equality that can index a finite map (Go: comparable [interface{}]);
    - the list [queue] is a Rocq list of elements, front first.  A Go
      [*list.Element] is a heap object with an identity; its [Value]
      field is written once, by [PushFront].  An element is therefore a
      pair of an identity [eid] and its [Value], identities are handed
      out by a counter [next_eid], and "[e] belongs to list [l]"
      ([e.list == l] in [container/list]) is membership of [eid e];
    - [time.Time] and [time.Duration] are integers (nanoseconds); the
      clock reading [time.Now()] is an argument of the operation;
    - a nil pointer dereference is a panic: [Set_] returns [None] there
      ([Set] is a keyword of Rocq, hence the name [Set_]);
    - the callback [deleteCallback] is observed through the log of the
      counts it was called with. *)

From stdpp Require Import gmap list strings sorting.
From Stdlib Require Import ZArith Lia.

Local Open Scope Z_scope.

Section LRU.

Context `{Countable K}.
Context {V : Type}.

(** ** Data model ([main.go], lines 15-70) *)

Record lruQueueItem := { key : K; ttl : Z }.

(** A [*list.Element] of [container/list]: its identity and its [Value]. *)
Record Element := { eid : nat; Value : lruQueueItem }.

Record cacheValue := { data : V; link : Element }.

Record ConfigBuilder := {
  b_defaultTTL : Z;
  b_maxSize : Z;
  b_cleanInterval : Z;
  b_deleteCallback : bool  (* [true]: a callback is set, [false]: nil *)
}.

Record LRUCache := {
  values : gmap K cacheValue;
  queue : list Element;
  maxSize : Z;
  defaultTTL : Z;
  deleteCallback : bool;
  (* the heap allocator: the identity of the next [list.Element] *)
  next_eid : nat;
  (* the counts [deleteCallback] has been called with, oldest first *)
  callback_log : list Z
}.

(** [math.MaxInt32] *)
Definition MaxInt32 : Z := 2147483647.

(** One minute, in nanoseconds. *)
Definition Minute : Z := 60000000000.

Definition Configuration : ConfigBuilder :=
  {| b_defaultTTL := -1; b_maxSize := MaxInt32 - 1;
     b_cleanInterval := Minute; b_deleteCallback := false |}.

Definition SetDefaultTTL (d : Z) (b : ConfigBuilder) : ConfigBuilder :=
  {| b_defaultTTL := d; b_maxSize := b_maxSize b;
     b_cleanInterval := b_cleanInterval b;
     b_deleteCallback := b_deleteCallback b |}.

Definition SetMaxSize (size : Z) (b : ConfigBuilder) : ConfigBuilder :=
  {| b_defaultTTL := b_defaultTTL b; b_maxSize := size;
     b_cleanInterval := b_cleanInterval b;
     b_deleteCallback := b_deleteCallback b |}.

Definition SetCleanupInterval (interval : Z) (b : ConfigBuilder)
    : ConfigBuilder :=
  {| b_defaultTTL := b_defaultTTL b; b_maxSize := b_maxSize b;
     b_cleanInterval := interval;
     b_deleteCallback := b_deleteCallback b |}.

(** [SetDeleteCallback] with a callback that is not nil. *)
Definition SetDeleteCallback (b : ConfigBuilder) : ConfigBuilder :=
  {| b_defaultTTL := b_defaultTTL b; b_maxSize := b_maxSize b;
     b_cleanInterval := b_cleanInterval b;
     b_deleteCallback := true |}.

Definition NewLRUCache (config : ConfigBuilder) : LRUCache :=
  {| values := ∅; queue := [];
     maxSize := b_maxSize config;
     defaultTTL := b_defaultTTL config;
     deleteCallback := b_deleteCallback config;
     next_eid := 0%nat; callback_log := [] |}.

(** The background sweeper is started only for a non-negative TTL
    ([main.go], line 85). *)
Definition sweeper_started (config : ConfigBuilder) : bool :=
  bool_decide (0 ≤ b_defaultTTL config).

(** ** The operations of [container/list] the engine uses *)

(** [e.list == l] *)
Definition in_list (e : Element) (l : list Element) : bool :=
  bool_decide (eid e ∈ eid <$> l).

(** [l.root.next == e] *)
Definition is_front (e : Element) (l : list Element) : bool :=
  match l with
  | x :: _ => bool_decide (eid x = eid e)
  | [] => false
  end.

(** [l.Remove(e)]: unlinks [e] when it belongs to [l], else nothing. *)
Definition Remove (e : Element) (l : list Element) : list Element :=
  filter (λ x, eid x ≠ eid e) l.

(** [l.MoveToFront(e)]: nothing when [e] is not an element of [l] or is
    already the front. *)
Definition MoveToFront (e : Element) (l : list Element) : list Element :=
  if negb (in_list e l) || is_front e l then l else e :: Remove e l.

(** [l.Back()]: nil on the empty list. *)
Definition Back (l : list Element) : option Element := last l.

(** ** The engine ([main.go], lines 97-192) *)

(** The state with a new map and a new queue, the rest unchanged. *)
Definition with_store (vs : gmap K cacheValue) (q : list Element)
    (c : LRUCache) : LRUCache :=
  {| values := vs; queue := q;
     maxSize := maxSize c; defaultTTL := defaultTTL c;
     deleteCallback := deleteCallback c;
     next_eid := next_eid c; callback_log := callback_log c |}.

(** One allocation of a [list.Element]. *)
Definition alloc (c : LRUCache) : LRUCache :=
  {| values := values c; queue := queue c;
     maxSize := maxSize c; defaultTTL := defaultTTL c;
     deleteCallback := deleteCallback c;
     next_eid := S (next_eid c); callback_log := callback_log c |}.

(** [if c.deleteCallback != nil { c.deleteCallback(count) }] *)
Definition notify (count : Z) (c : LRUCache) : LRUCache :=
  {| values := values c; queue := queue c;
     maxSize := maxSize c; defaultTTL := defaultTTL c;
     deleteCallback := deleteCallback c;
     next_eid := next_eid c;
     callback_log :=
       if deleteCallback c then callback_log c ++ [count]
       else callback_log c |}.

Definition unsafeDelete (k : K) (value : cacheValue) (c : LRUCache)
    : LRUCache :=
  with_store (delete k (values c)) (Remove (link value) (queue c)) c.

Definition Get (k : K) (c : LRUCache) : option V * LRUCache :=
  match values c !! k with
  | None => (None, c)
  | Some value =>
      (Some (data value),
       with_store (values c) (MoveToFront (link value) (queue c)) c)
  end.

(** [Set] takes the lock twice.  The first critical section (lines
    113-121) looks the key up and, when it is found, replaces the value
    and promotes the node; [None] stands for "not found". *)
Definition Set_update (k : K) (value : V) (c : LRUCache) : option LRUCache :=
  match values c !! k with
  | Some old =>
      Some (with_store
              (<[k := {| data := value; link := link old |}]> (values c))
              (MoveToFront (link old) (queue c)) c)
  | None => None
  end.

(** The second critical section (lines 123-138) up to the capacity
    check: a new element holding the key and its expiry time is
    allocated, pushed to the front of the queue and stored with the
    value.  [now] is the reading of [time.Now()] on line 125. *)
Definition pushed (k : K) (value : V) (now : Z) (c : LRUCache) : LRUCache :=
  let LRUitem := {| key := k; ttl := now + defaultTTL c |} in
  let queueItem := {| eid := next_eid c; Value := LRUitem |} in
  alloc (with_store
           (<[k := {| data := value; link := queueItem |}]> (values c))
           (queueItem :: queue c) c).

(** The second critical section: after the insertion the back node is
    evicted when the queue is longer than [maxSize].  The result is
    [None] when the eviction dereferences nil (an empty queue, or no
    value stored under the key of the back node). *)
Definition Set_insert (k : K) (value : V) (now : Z) (c : LRUCache)
    : option LRUCache :=
  let c1 := pushed k value now c in
  if decide (maxSize c1 < Z.of_nat (length (queue c1))) then
    item ← Back (queue c1);
    cachedItem ← values c1 !! key (Value item);
    Some (unsafeDelete (key (Value item)) cachedItem c1)
  else Some c1.

(** [Set] run by one caller alone. *)
Definition Set_ (k : K) (value : V) (now : Z) (c : LRUCache)
    : option LRUCache :=
  match Set_update k value c with
  | Some c' => Some c'
  | None => Set_insert k value now c
  end.

Definition Delete (k : K) (c : LRUCache) : LRUCache :=
  match values c !! k with
  | Some value => notify 1 (unsafeDelete k value c)
  | None => c
  end.

Definition Clean (c : LRUCache) : LRUCache := with_store ∅ [] c.

Definition Size (c : LRUCache) : Z := Z.of_nat (length (queue c)).

(** [item.ttl.Sub(time.Now()) < 0] *)
Definition expired (now : Z) (value : cacheValue) : Prop :=
  ttl (Value (link value)) - now < 0.

Global Instance expired_dec now value : Decision (expired now value).
Proof. unfold expired. apply _. Defined.

(** The body of the [range c.values] loop of [cleanInterval], run over
    the entries in the order the iteration yields them. *)
Definition sweep_entry (now : Z) (acc : LRUCache * Z) (kv : K * cacheValue)
    : LRUCache * Z :=
  if decide (expired now kv.2)
  then (unsafeDelete kv.1 kv.2 acc.1, acc.2 + 1)
  else acc.

Definition sweep_entries (now : Z) (entries : list (K * cacheValue))
    (c : LRUCache) : LRUCache * Z :=
  foldl (sweep_entry now) (c, 0) entries.

(** [cleanInterval]: one pass of the sweeper.  The source reads
    [time.Now()] at every entry of one pass; a pass is modelled at the
    single clock reading [now].  Go visits every entry of the map once
    when only the entry being visited is deleted, in an unspecified
    order; [map_to_list] fixes one order, and [sweep_entries_order]
    below shows that the result does not depend on it. *)
Definition cleanInterval (now : Z) (c : LRUCache) : LRUCache :=
  let r := sweep_entries now (map_to_list (values c)) c in
  notify r.2 r.1.

(** The entries of [l] the loop body deletes. *)
Definition expired_entries (now : Z) (l : list (K * cacheValue))
    : list (K * cacheValue) :=
  filter (λ kv, expired now kv.2) l.

(** The node of the queue has an expiry time before [now]. *)
Definition stale (now : Z) (e : Element) : Prop := ttl (Value e) - now < 0.

Global Instance stale_dec now e : Decision (stale now e).
Proof. unfold stale. apply _. Defined.

(** The key a node of the queue carries. *)
Definition key_of (e : Element) : K := key (Value e).

(** ** Runs of the engine by one caller

    The operations a caller or the sweeper can perform; [now] is what
    the clock reads when the operation runs. *)
Inductive op :=
  | OpGet (k : K)
  | OpSet (k : K) (v : V) (now : Z)
  | OpDelete (k : K)
  | OpClean
  | OpSweep (now : Z).

Definition step (o : op) (c : LRUCache) : option LRUCache :=
  match o with
  | OpGet k => Some (Get k c).2
  | OpSet k v now => Set_ k v now c
  | OpDelete k => Some (Delete k c)
  | OpClean => Some (Clean c)
  | OpSweep now => Some (cleanInterval now c)
  end.

(** The state after the operations of [tr], oldest first; [None] when
    one of them panics. *)
Definition run (tr : list op) (c : LRUCache) : option LRUCache :=
  foldl (λ oc o, oc ≫= step o) (Some c) tr.

(** ** Notions the statements use *)

(** The number of stored entries whose expiry time is strictly before
    [now]. *)
Definition stale_count (now : Z) (c : LRUCache) : nat :=
  size (filter (λ kv, ttl (Value (link kv.2)) < now) (values c)).

(** [Get] does not read the clock: a [Get] issued when the clock reads
    [now] is [Get]. *)
Definition Get_at (now : Z) (k : K) (c : LRUCache) : option V * LRUCache :=
  Get k c.

(** The value that [o] sets for key [k], when [o] is a [Set] of [k]. *)
Definition set_value (k : K) (o : op) : option V :=
  match o with
  | OpSet k' v _ => if decide (k' = k) then Some v else None
  | _ => None
  end.

(** The value supplied by the most recent [Set] of [k] in [tr]. *)
Definition last_set (k : K) (tr : list op) : option V :=
  last (omap (set_value k) tr).

(** The state of [Set] after the write and before the capacity check:
    the updated state when the key is stored, else [pushed]. *)
Definition written (k : K) (value : V) (now : Z) (c : LRUCache) : LRUCache :=
  match Set_update k value c with
  | Some c' => c'
  | None => pushed k value now c
  end.

(** The queue holds no more nodes than the capacity (no node at all
    for a negative [maxSize]). *)
Definition bounded (c : LRUCache) : Prop := Size c ≤ Z.max 0 (maxSize c).

(** The state keeps the configuration it was built with. *)
Definition configured (config : ConfigBuilder) (c : LRUCache) : Prop :=
  maxSize c = b_maxSize config ∧ defaultTTL c = b_defaultTTL config ∧
  deleteCallback c = b_deleteCallback config.

(** ** Callers running concurrently

    What the source runs between a [Lock()] (or [RLock()]) and the
    matching unlock is one atomic step.  A call of [Get], [Set] or
    [Delete] takes the lock twice, and other callers may run between
    its two steps; what the call read in its first step it keeps in
    local variables. *)
Inductive call :=
  | CallGet (k : K)
  | CallSet (k : K) (v : V) (now : Z)
  | CallDelete (k : K).

(** Where a caller stands in its call. *)
Inductive caller :=
  | Ready (f : call)
  (* [Get], line 104: found, [value] in hand, about to promote *)
  | GetFound (value : cacheValue)
  (* [Set], line 122: not found, about to insert *)
  | SetNotFound (k : K) (v : V) (now : Z)
  (* [Delete], line 146: found, [value] in hand, about to delete *)
  | DeleteFound (k : K) (value : cacheValue)
  | Returned.

(** The next critical section of a caller. *)
Definition caller_step (g : caller) (c : LRUCache)
    : option (caller * LRUCache) :=
  match g with
  | Ready (CallGet k) =>
      match values c !! k with
      | Some value => Some (GetFound value, c)
      | None => Some (Returned, c)
      end
  | GetFound value =>
      Some (Returned,
            with_store (values c) (MoveToFront (link value) (queue c)) c)
  | Ready (CallSet k v now) =>
      match Set_update k v c with
      | Some c' => Some (Returned, c')
      | None => Some (SetNotFound k v now, c)
      end
  | SetNotFound k v now =>
      c' ← Set_insert k v now c; Some (Returned, c')
  | Ready (CallDelete k) =>
      match values c !! k with
      | Some value => Some (DeleteFound k value, c)
      | None => Some (Returned, c)
      end
  | DeleteFound k value => Some (Returned, notify 1 (unsafeDelete k value c))
  | Returned => Some (Returned, c)
  end.

(** The callers [gs] run under the schedule [sched]: the list of the
    callers that take the lock, in the order they take it. *)
Fixpoint run_schedule (sched : list nat) (gs : list caller) (c : LRUCache)
    : option (list caller * LRUCache) :=
  match sched with
  | [] => Some (gs, c)
  | i :: sched' =>
      g ← gs !! i;
      r ← caller_step g c;
      run_schedule sched' (<[i := r.1]> gs) r.2
  end.

(** ** Recency of the keys in a run *)

(** The key an operation touches: the key of a [Get] or of a [Set]. *)
Definition touched (o : op) : option K :=
  match o with
  | OpGet k | OpSet k _ _ => Some k
  | _ => None
  end.

(** The position in [tr], counted from [i], of the last operation that
    touches [k]; [None] when no operation of [tr] does. *)
Fixpoint last_touch_from (i : nat) (k : K) (tr : list op) : option nat :=
  match tr with
  | [] => None
  | o :: tr' =>
      match last_touch_from (S i) k tr' with
      | Some j => Some j
      | None => if decide (touched o = Some k) then Some i else None
      end
  end.

(** When [k] was last touched, by a [Get] or a [Set], in the run [tr]. *)
Definition last_touch (k : K) (tr : list op) : option nat :=
  last_touch_from 0 k tr.

(** The key of [a] was touched after the key of [b] was. *)
Definition more_recent (tr : list op) (a b : Element) : Prop :=
  ∃ ta tb, last_touch (key_of a) tr = Some ta ∧
           last_touch (key_of b) tr = Some tb ∧ (tb < ta)%nat.

Definition stamped (tr : list op) (e : Element) : Prop :=
  is_Some (last_touch (key_of e) tr).

(** The queue runs from the most recently to the least recently
    touched key. *)
Definition recency_ordered (tr : list op) (q : list Element) : Prop :=
  StronglySorted (more_recent tr) q ∧ Forall (stamped tr) q.

(** ** Well-formed states *)

(** The nodes of the queue that carry key [k]. *)
Definition nodes_of (k : K) (q : list Element) : list Element :=
  filter (λ e, key_of e = k) q.

(** The store-queue correspondence: the [link] of every stored value is
    a node of the queue that carries its key, every node of the queue
    is the [link] of the value stored under its key, and no element is
    linked into the queue twice. *)
Record store_queue_corr (c : LRUCache) : Prop := {
  corr_store : ∀ k cv, values c !! k = Some cv →
                 link cv ∈ queue c ∧ key_of (link cv) = k;
  corr_queue : ∀ e, e ∈ queue c →
                 ∃ cv, values c !! key_of e = Some cv ∧ link cv = e;
  corr_nodup : NoDup (eid <$> queue c)
}.

(** Every element in use was handed out by the allocator. *)
Definition alloc_ok (c : LRUCache) : Prop :=
  ∀ e, e ∈ queue c → (eid e < next_eid c)%nat.

Definition wf (c : LRUCache) : Prop := store_queue_corr c ∧ alloc_ok c.

(** ** The HTTP handlers ([main.go], lines 194-231)

    A handler is modelled from the request it has parsed to the
    response it writes.  What [net/http] and [encoding/json] do is
    left out: [HandlerGet] takes the value of the query parameter
    [key] (the empty string when the parameter is missing), and
    [HandlerSet] takes the outcome of decoding the body.  A body that
    [respondWithJson] marshals is kept as the value it marshals. *)

Section Handlers.

(** A Go string as a key of the cache (an [interface{}] holding a
    string), and the nil [interface{}]. *)
Variable string_key : string → K.
Variable nil_value : V.

Definition StatusBadRequest : Z := 400.
Definition StatusCreated : Z := 201.

Inductive body :=
  (* [http.Error]: the message, as plain text *)
  | ErrorText (msg : string)
  (* [respondWithJson] of a value read from the cache *)
  | JsonValue (payload : V)
  (* [respondWithJson] of the decoded struct: its key and its value *)
  | JsonKeyValue (k : K) (payload : V).

Record response := { status : Z; sent : body }.

Definition http_Error (msg : string) (code : Z) : response :=
  {| status := code; sent := ErrorText msg |}.

Definition respondWithJson (code : Z) (payload : body) : response :=
  {| status := code; sent := payload |}.

(** The field [Key] of the decoded struct: a value that can be a map
    key (nil, a bool, a number, a string), or a slice or a map, on
    which the lookup [c.values[key]] of [Set] panics. *)
Inductive decoded_key :=
  | Hashable (k : K)
  | Unhashable.

(** The outcome of [json.NewDecoder(r.Body).Decode(&data)]. *)
Inductive decoded :=
  | DecodeFailed
  | Decoded (k : decoded_key) (value : V).

(** [HandlerGet]; [q] is [r.URL.Query().Get("key")]. *)
Definition HandlerGet (q : string) (c : LRUCache) : response * LRUCache :=
  if decide (q = EmptyString)
  then (http_Error "Key not provided" StatusBadRequest, c)
  else
    let r := Get (string_key q) c in
    (respondWithJson StatusCreated (JsonValue (default nil_value r.1)), r.2).

(** [HandlerSet]; [None] when the handler panics. *)
Definition HandlerSet (d : decoded) (now : Z) (c : LRUCache)
    : option (response * LRUCache) :=
  match d with
  | DecodeFailed =>
      Some (http_Error "Invalid JSON payload" StatusBadRequest, c)
  | Decoded Unhashable _ => None
  | Decoded (Hashable k) value =>
      c' ← Set_ k value now c;
      Some (respondWithJson StatusCreated (JsonKeyValue k value), c')
  end.

End Handlers.

(** ** Callers that hold pointers

    What a caller read in its first critical section may be out of
    date in its second. *)

(** The caller is in a call of [Set]. *)
Definition setter (g : caller) : Prop :=
  match g with
  | Ready (CallSet _ _ _) | SetNotFound _ _ _ => True
  | _ => False
  end.

(** The element is not linked into the queue. *)
Definition unlinked (e : Element) (c : LRUCache) : Prop :=
  eid e ∉ eid <$> queue c.

(** What the caller holds is still stored, or is gone for good. *)
Definition local_ok (c : LRUCache) (g : caller) : Prop :=
  match g with
  | GetFound value => link value ∈ queue c ∨ unlinked (link value) c
  | DeleteFound k value =>
      values c !! k = Some value ∨
      (values c !! k = None ∧ unlinked (link value) c)
  | _ => True
  end.

(** The caller is about to start a call of [Get] or of [Delete]. *)
Definition about_to_Get_or_Delete (g : caller) : Prop :=
  match g with
  | Ready (CallGet _) | Ready (CallDelete _) => True
  | _ => False
  end.

(** The run that sets the entries of [l], each a key, a value and the
    clock reading of its [Set], one after the other. *)
Definition inserts (l : list (K * V * Z)) : list op :=
  (λ x, OpSet x.1.1 x.1.2 x.2) <$> l.

(** The keys of the entries of [l]. *)
Definition keys_of (l : list (K * V * Z)) : list K := (λ x, x.1.1) <$> l.

(** ** Configurations and inputs of the examples *)

(** The configuration of [main] (lines 234-236): five seconds, 1024
    entries. *)
Definition main_config : ConfigBuilder :=
  SetMaxSize 1024 (SetDefaultTTL 5000000000 Configuration).

(** Two entries, expiry five ticks after the insertion, a callback. *)
Definition example_config : ConfigBuilder :=
  SetDeleteCallback (SetDefaultTTL 5 (SetMaxSize 2 Configuration)).

(** The state after the run [tr] from a new cache. *)
Definition state_after (config : ConfigBuilder) (tr : list op) : LRUCache :=
  default (NewLRUCache config) (run tr (NewLRUCache config)).

(** Two callers of [Set] with the same key. *)
Definition two_setters (k : K) (v1 v2 : V) (now : Z) : list caller :=
  [Ready (CallSet k v1 now); Ready (CallSet k v2 now)].

(** * Proofs *)

(** ** Lemmas on the list operations *)

Lemma elem_of_Remove (e x : Element) (l : list Element) :
  x ∈ Remove e l ↔ x ∈ l ∧ eid x ≠ eid e.
Proof. unfold Remove. rewrite list_elem_of_filter. tauto. Qed.

Lemma Remove_not_in (e : Element) (l : list Element) :
  eid e ∉ eid <$> l → Remove e l = l.
Proof.
  intros Hn. unfold Remove. induction l as [|x l IH]; [done|].
  rewrite fmap_cons, not_elem_of_cons in Hn. destruct Hn as [Hx Hl].
  rewrite filter_cons_True by congruence. f_equal. auto.
Qed.

Lemma Remove_split (e : Element) (l1 l2 : list Element) :
  NoDup (eid <$> (l1 ++ e :: l2)) → Remove e (l1 ++ e :: l2) = l1 ++ l2.
Proof.
  intros Hnd. rewrite fmap_app, fmap_cons in Hnd.
  apply NoDup_app in Hnd as (_ & Hdisj & Hnd2).
  apply NoDup_cons in Hnd2 as [Hn2 _].
  unfold Remove. rewrite filter_app, filter_cons_False by (intros Hc; by apply Hc).
  fold (Remove e l1). fold (Remove e l2).
  rewrite !Remove_not_in; [done|done|].
  intros Hin. apply (Hdisj _ Hin). left.
Qed.

Lemma Remove_sublist (e : Element) (l : list Element) : Remove e l `sublist_of` l.
Proof. apply sublist_filter. Qed.

Lemma Remove_NoDup (e : Element) (l : list Element) :
  NoDup (eid <$> l) → NoDup (eid <$> Remove e l).
Proof.
  intros Hnd. eapply sublist_NoDup; [exact Hnd|].
  apply fmap_sublist, Remove_sublist.
Qed.

Lemma in_list_true (e : Element) (l : list Element) :
  e ∈ l → in_list e l = true.
Proof.
  intros He. unfold in_list. apply bool_decide_eq_true.
  by apply list_elem_of_fmap_2.
Qed.

(** The shape of a queue after [MoveToFront] of one of its nodes: the
    node first, then the other nodes in their former order. *)
Lemma MoveToFront_split (e : Element) (l1 l2 : list Element) :
  NoDup (eid <$> (l1 ++ e :: l2)) →
  MoveToFront e (l1 ++ e :: l2) = e :: l1 ++ l2.
Proof.
  intros Hnd. unfold MoveToFront.
  rewrite in_list_true by (apply elem_of_app; right; left). simpl.
  destruct (is_front e (l1 ++ e :: l2)) eqn:Hf.
  - destruct l1 as [|x l1]; [done|]. simpl in Hf.
    apply bool_decide_eq_true in Hf. exfalso.
    rewrite fmap_app in Hnd. simpl in Hnd.
    apply NoDup_cons in Hnd as [Hx _]. apply Hx.
    rewrite Hf. apply elem_of_app. right. simpl. left.
  - by rewrite Remove_split.
Qed.

Lemma MoveToFront_Permutation (e : Element) (l : list Element) :
  NoDup (eid <$> l) → e ∈ l → MoveToFront e l ≡ₚ l.
Proof.
  intros Hnd He. apply list_elem_of_split in He as (l1 & l2 & ->).
  rewrite MoveToFront_split by done.
  by rewrite Permutation_middle.
Qed.

(** ** Consequences of the correspondence *)

Lemma eid_inj_queue (l : list Element) (x y : Element) :
  NoDup (eid <$> l) → x ∈ l → y ∈ l → eid x = eid y → x = y.
Proof.
  intros Hnd Hx Hy Heq.
  apply list_elem_of_lookup in Hx as [i Hi].
  apply list_elem_of_lookup in Hy as [j Hj].
  assert (i = j) as ->.
  { eapply NoDup_lookup; [exact Hnd| |].
    - rewrite list_lookup_fmap, Hi. reflexivity.
    - rewrite list_lookup_fmap, Hj. simpl. by rewrite Heq. }
  congruence.
Qed.

Lemma corr_key_inj (c : LRUCache) (x y : Element) :
  store_queue_corr c → x ∈ queue c → y ∈ queue c →
  key_of x = key_of y → x = y.
Proof.
  intros Hc Hx Hy Heq.
  destruct (corr_queue c Hc x Hx) as (cx & Hlx & <-).
  destruct (corr_queue c Hc y Hy) as (cy & Hly & <-).
  rewrite Heq in Hlx. congruence.
Qed.

Lemma corr_keys_NoDup (c : LRUCache) :
  store_queue_corr c → NoDup (key_of <$> queue c).
Proof.
  intros Hc. apply NoDup_fmap_2_strong.
  - intros x y Hx Hy. by apply (corr_key_inj c).
  - eapply NoDup_fmap_1, (corr_nodup c Hc).
Qed.

Lemma corr_key_in_queue (c : LRUCache) (k : K) :
  store_queue_corr c →
  k ∈ key_of <$> queue c ↔ is_Some (values c !! k).
Proof.
  intros Hc. rewrite list_elem_of_fmap. split.
  - intros (e & -> & He). destruct (corr_queue c Hc e He) as (cv & Hcv & _).
    by exists cv.
  - intros [cv Hcv]. destruct (corr_store c Hc k cv Hcv) as [Hin Hk].
    by exists (link cv).
Qed.

Lemma corr_keys_Permutation (c : LRUCache) :
  store_queue_corr c → key_of <$> queue c ≡ₚ (map_to_list (values c)).*1.
Proof.
  intros Hc. apply NoDup_Permutation.
  - by apply corr_keys_NoDup.
  - apply NoDup_fst_map_to_list.
  - intros k. rewrite corr_key_in_queue by done.
    rewrite list_elem_of_fmap. split.
    + intros [cv Hcv]. exists (k, cv). split; [done|].
      by apply elem_of_map_to_list.
    + intros ([k' cv] & -> & Hin). apply elem_of_map_to_list in Hin.
      by exists cv.
Qed.

(** [Size()], which is the length of the queue, is the number of stored
    keys. *)
Lemma corr_Size (c : LRUCache) :
  store_queue_corr c → Size c = Z.of_nat (size (values c)).
Proof.
  intros Hc. unfold Size. f_equal.
  rewrite <- (length_fmap key_of), (corr_keys_Permutation c Hc).
  by rewrite length_fmap, length_map_to_list.
Qed.

(** A stored key has exactly one node. *)
Lemma corr_one_node (c : LRUCache) (k : K) (cv : cacheValue) :
  store_queue_corr c → values c !! k = Some cv →
  nodes_of k (queue c) = [link cv].
Proof.
  intros Hc Hcv. destruct (corr_store c Hc k cv Hcv) as [Hin Hk].
  pose proof (corr_keys_NoDup c Hc) as Hnd.
  apply list_elem_of_split in Hin as (l1 & l2 & Hq).
  rewrite Hq in Hnd |- *. unfold nodes_of.
  rewrite fmap_app, fmap_cons in Hnd.
  apply NoDup_app in Hnd as (_ & Hdisj & Hnd2).
  apply NoDup_cons in Hnd2 as [Hn2 _].
  rewrite filter_app, filter_cons_True by done.
  assert (∀ l, k ∉ key_of <$> l → filter (λ e, key_of e = k) l = []) as Hnone.
  { induction l as [|x l IH]; [done|]. rewrite fmap_cons, not_elem_of_cons.
    intros [Hx Hl]. rewrite filter_cons_False by congruence. auto. }
  rewrite !Hnone; [done| by rewrite <- Hk |].
  intros Hin. apply (Hdisj _ Hin). rewrite Hk. left.
Qed.

(** A key that is not stored has no node. *)
Lemma corr_no_node (c : LRUCache) (k : K) :
  store_queue_corr c → values c !! k = None → nodes_of k (queue c) = [].
Proof.
  intros Hc Hn. unfold nodes_of.
  destruct (filter (λ e, key_of e = k) (queue c)) as [|e l] eqn:Hf; [done|].
  assert (e ∈ filter (λ e, key_of e = k) (queue c)) as He by (rewrite Hf; left).
  apply list_elem_of_filter in He as [Hk He].
  destruct (corr_queue c Hc e He) as (cv & Hcv & _). congruence.
Qed.

(** ** The operations preserve well-formedness *)

Lemma wf_NewLRUCache (config : ConfigBuilder) : wf (NewLRUCache config).
Proof.
  split; [split|]; simpl.
  - intros k cv Hk. by rewrite lookup_empty in Hk.
  - intros e He. by apply elem_of_nil in He.
  - constructor.
  - intros e He. by apply elem_of_nil in He.
Qed.

Lemma wf_Clean (c : LRUCache) : wf (Clean c).
Proof.
  split; [split|]; simpl.
  - intros k cv Hk. by rewrite lookup_empty in Hk.
  - intros e He. by apply elem_of_nil in He.
  - constructor.
  - intros e He. by apply elem_of_nil in He.
Qed.

Lemma wf_notify (n : Z) (c : LRUCache) : wf c → wf (notify n c).
Proof. intros [[H1 H2 H3] H4]. split; [split|]; done. Qed.

(** A state whose queue is a permutation of the queue of a well-formed
    state, with the same links stored under the same keys. *)
Lemma wf_same_links (c c' : LRUCache) :
  wf c → queue c' ≡ₚ queue c → next_eid c' = next_eid c →
  (∀ k, link <$> values c' !! k = link <$> values c !! k) →
  wf c'.
Proof.
  intros [[H1 H2 H3] H4] Hq Hn Hv. split; [split|].
  - intros k cv Hk. pose proof (Hv k) as Hvk. rewrite Hk in Hvk. simpl in Hvk.
    destruct (values c !! k) as [cv0|] eqn:Hk0; [|done].
    simpl in Hvk. injection Hvk as ->. rewrite Hq. eauto.
  - intros e He. rewrite Hq in He. destruct (H2 e He) as (cv & Hcv & Hl).
    pose proof (Hv (key_of e)) as Hvk. rewrite Hcv in Hvk. simpl in Hvk.
    destruct (values c' !! key_of e) as [cv'|]; [|done].
    simpl in Hvk. injection Hvk as Heq. exists cv'. split; congruence.
  - by rewrite Hq.
  - intros e He. rewrite Hq in He. rewrite Hn. auto.
Qed.

Lemma wf_promote (c : LRUCache) (k : K) (cv : cacheValue) :
  wf c → values c !! k = Some cv →
  wf (with_store (values c) (MoveToFront (link cv) (queue c)) c).
Proof.
  intros Hwf Hk. apply (wf_same_links c); [done| |done|done].
  destruct Hwf as [Hc _]. simpl. apply MoveToFront_Permutation.
  - apply (corr_nodup c Hc).
  - apply (corr_store c Hc k cv Hk).
Qed.

Lemma wf_update (c : LRUCache) (k : K) (old : cacheValue) (v : V) :
  wf c → values c !! k = Some old →
  wf (with_store (<[k := {| data := v; link := link old |}]> (values c))
                 (MoveToFront (link old) (queue c)) c).
Proof.
  intros Hwf Hk. apply (wf_same_links c); [done| |done|].
  - destruct Hwf as [Hc _]. simpl. apply MoveToFront_Permutation.
    + apply (corr_nodup c Hc).
    + apply (corr_store c Hc k old Hk).
  - intros k'. simpl. destruct (decide (k = k')) as [<-|Hne].
    + by rewrite lookup_insert_eq, Hk.
    + by rewrite lookup_insert_ne.
Qed.

Lemma corr_unsafeDelete (c : LRUCache) (k : K) (cv : cacheValue) :
  store_queue_corr c → values c !! k = Some cv →
  store_queue_corr (unsafeDelete k cv c).
Proof.
  intros Hc Hk. pose proof Hc as [H1 H2 H3].
  destruct (H1 k cv Hk) as [Hin Hkey].
  split; simpl.
  - intros k' cv' Hk'. apply lookup_delete_Some in Hk' as [Hne Hk'].
    destruct (H1 k' cv' Hk') as [Hin' Hkey']. split; [|done].
    apply elem_of_Remove. split; [done|]. intros Heq.
    apply Hne. rewrite <- Hkey, <- Hkey'.
    by rewrite (eid_inj_queue (queue c) _ _ H3 Hin' Hin Heq).
  - intros e He. apply elem_of_Remove in He as [He Hne].
    destruct (H2 e He) as (cv' & Hcv' & Hl). exists cv'. split; [|done].
    rewrite lookup_delete_ne; [done|]. intros Heq.
    apply Hne. rewrite <- Heq in Hcv'. congruence.
  - by apply Remove_NoDup.
Qed.

Lemma wf_unsafeDelete (c : LRUCache) (k : K) (cv : cacheValue) :
  wf c → values c !! k = Some cv → wf (unsafeDelete k cv c).
Proof.
  intros [Hc Ha] Hk. split; [by apply corr_unsafeDelete|].
  intros e He. apply elem_of_Remove in He as [He _]. by apply Ha.
Qed.

Lemma wf_pushed (k : K) (v : V) (now : Z) (c : LRUCache) :
  wf c → values c !! k = None → wf (pushed k v now c).
Proof.
  intros [Hc Ha] Hk. pose proof Hc as [H1 H2 H3].
  split; [split|]; simpl.
  - intros k' cv' Hk'. destruct (decide (k = k')) as [<-|Hne].
    + rewrite lookup_insert_eq in Hk'. injection Hk' as <-. simpl.
      split; [left|done].
    + rewrite lookup_insert_ne in Hk' by done.
      destruct (H1 k' cv' Hk'). split; [by right|done].
  - intros e He. apply elem_of_cons in He as [->|He].
    + unfold key_of at 1. simpl. rewrite lookup_insert_eq. eauto.
    + destruct (H2 e He) as (cv' & Hcv' & Hl). exists cv'. split; [|done].
      rewrite lookup_insert_ne; [done|]. intros Heq. congruence.
  - apply NoDup_cons. split; [|done].
    intros Hin. apply list_elem_of_fmap in Hin as (e & Heq & He).
    specialize (Ha e He). lia.
  - intros e He. apply elem_of_cons in He as [->|He]; simpl; [lia|].
    specialize (Ha e He). lia.
Qed.

(** ** What [Set_insert] does on a well-formed state *)

Lemma list_snoc_cases {A} (l : list A) : l = [] ∨ ∃ l' x, l = l' ++ [x].
Proof.
  induction l as [|a l IH] using rev_ind; [by left|right; eauto].
Qed.

Lemma Remove_last (l : list Element) (x : Element) :
  NoDup (eid <$> (l ++ [x])) → Remove x (l ++ [x]) = l.
Proof.
  intros Hnd. rewrite (Remove_split x l []) by done. apply app_nil_r.
Qed.

(** No eviction: the queue is not longer than [maxSize]. *)
Lemma Set_insert_fits (k : K) (v : V) (now : Z) (c : LRUCache) :
  Z.of_nat (S (length (queue c))) ≤ maxSize c →
  Set_insert k v now c = Some (pushed k v now c).
Proof.
  intros Hle. unfold Set_insert. simpl.
  destruct (decide _) as [Hlt|]; [lia|done].
Qed.

(** Eviction: the back node of the queue and the value stored under
    its key are removed. *)
Lemma Set_insert_evicts (k : K) (v : V) (now : Z) (c : LRUCache) :
  wf c → values c !! k = None →
  maxSize c < Z.of_nat (S (length (queue c))) →
  ∃ l item cv,
    queue (pushed k v now c) = l ++ [item] ∧
    values (pushed k v now c) !! key_of item = Some cv ∧
    link cv = item ∧
    Set_insert k v now c
      = Some (unsafeDelete (key_of item) cv (pushed k v now c)) ∧
    queue (unsafeDelete (key_of item) cv (pushed k v now c)) = l ∧
    values (unsafeDelete (key_of item) cv (pushed k v now c))
      = delete (key_of item) (values (pushed k v now c)).
Proof.
  intros Hwf Hk Hlt.
  pose proof (wf_pushed k v now c Hwf Hk) as [Hc1 Ha1].
  destruct (list_snoc_cases (queue (pushed k v now c))) as [Hnil|(l & item & Hq)].
  { simpl in Hnil. discriminate. }
  assert (item ∈ queue (pushed k v now c)) as Hin.
  { rewrite Hq. apply elem_of_app. right. left. }
  destruct (corr_queue _ Hc1 item Hin) as (cv & Hcv & Hl).
  exists l, item, cv. split_and!; try done.
  - unfold Set_insert.
    destruct (decide _) as [_|Hn]; [|simpl in Hn; lia].
    unfold Back. rewrite Hq, last_snoc.
    cbn [mbind option_bind].
    change (key (Value item)) with (key_of item). by rewrite Hcv.
  - unfold unsafeDelete. cbn [queue with_store]. rewrite Hl, Hq.
    apply Remove_last. rewrite <- Hq. apply (corr_nodup _ Hc1).
Qed.

(** [Set] never panics on a well-formed state, and its result is
    well-formed. *)
Lemma wf_Set (k : K) (v : V) (now : Z) (c : LRUCache) :
  wf c → ∃ c', Set_ k v now c = Some c' ∧ wf c'.
Proof.
  intros Hwf. unfold Set_, Set_update.
  destruct (values c !! k) as [old|] eqn:Hk.
  - eexists. split; [done|]. by apply wf_update.
  - destruct (decide (maxSize c < Z.of_nat (S (length (queue c))))) as [Hlt|Hge].
    + destruct (Set_insert_evicts k v now c Hwf Hk Hlt)
        as (l & item & cv & _ & Hcv & _ & -> & _).
      eexists. split; [done|].
      apply wf_unsafeDelete; [by apply wf_pushed|done].
    + rewrite Set_insert_fits by lia. eexists. split; [done|].
      by apply wf_pushed.
Qed.

Lemma wf_Get (k : K) (c : LRUCache) : wf c → wf (Get k c).2.
Proof.
  intros Hwf. unfold Get. destruct (values c !! k) as [cv|] eqn:Hk; simpl.
  - by apply (wf_promote c k).
  - done.
Qed.

Lemma wf_Delete (k : K) (c : LRUCache) : wf c → wf (Delete k c).
Proof.
  intros Hwf. unfold Delete. destruct (values c !! k) as [cv|] eqn:Hk.
  - by apply wf_notify, wf_unsafeDelete.
  - done.
Qed.

(** ** What one pass of the sweeper does *)

Lemma filter_all {A} (P : A → Prop) `{!∀ x, Decision (P x)} (l : list A) :
  (∀ x, x ∈ l → P x) → filter P l = l.
Proof.
  induction l as [|x l IH]; intros Hall; [done|].
  rewrite filter_cons_True by (apply Hall; left).
  f_equal. apply IH. intros y Hy. apply Hall. by right.
Qed.

Lemma filter_ext_in {A} (P Q : A → Prop)
    `{!∀ x, Decision (P x)} `{!∀ x, Decision (Q x)} (l : list A) :
  (∀ x, x ∈ l → P x ↔ Q x) → filter P l = filter Q l.
Proof.
  induction l as [|x l IH]; intros Hall; [done|].
  assert (filter P l = filter Q l) as Hl.
  { apply IH. intros y Hy. apply Hall. by right. }
  destruct (decide (P x)) as [HP|HP].
  - rewrite !filter_cons_True; [by f_equal| |done]. apply Hall; [left|done].
  - rewrite !filter_cons_False; [done| |done].
    intros HQ. apply HP, Hall; [left|done].
Qed.

(** The loop of [cleanInterval] over any list of entries, from any
    accumulator: what is left of the map and of the queue, and the
    count, depend on the entries visited and not on their order. *)
Lemma sweep_loop (now : Z) (l : list (K * cacheValue)) (acc : LRUCache * Z) :
  let r := foldl (sweep_entry now) acc l in
  values r.1
    = filter (λ kv, kv.1 ∉ (expired_entries now l).*1) (values acc.1) ∧
  queue r.1
    = filter (λ e, eid e ∉ (λ kv, eid (link kv.2)) <$> expired_entries now l)
             (queue acc.1) ∧
  r.2 = acc.2 + Z.of_nat (length (expired_entries now l)) ∧
  maxSize r.1 = maxSize acc.1 ∧ defaultTTL r.1 = defaultTTL acc.1 ∧
  deleteCallback r.1 = deleteCallback acc.1 ∧
  next_eid r.1 = next_eid acc.1 ∧ callback_log r.1 = callback_log acc.1.
Proof.
  revert acc. induction l as [|x l IH]; intros acc; simpl.
  - split_and!; try done.
    + symmetry. apply map_filter_id. intros i cv _. apply not_elem_of_nil.
    + symmetry. apply filter_all. intros e _. apply not_elem_of_nil.
    + lia.
  - specialize (IH (sweep_entry now acc x)). simpl in IH.
    destruct IH as (Hv & Hq & Hn & H4 & H5 & H6 & H7 & H8).
    rewrite Hv, Hq, Hn, H4, H5, H6, H7, H8. clear Hv Hq Hn H4 H5 H6 H7 H8.
    unfold sweep_entry, expired_entries.
    destruct (decide (expired now x.2)) as [Hx|Hx].
    + rewrite filter_cons_True by done. simpl. split_and!; try reflexivity.
      * apply map_eq. intros i. apply option_eq. intros cv.
        rewrite !map_lookup_filter_Some, lookup_delete_Some. simpl.
        rewrite not_elem_of_cons. intuition congruence.
      * unfold Remove. rewrite list_filter_filter.
        apply list_filter_iff. intros e. rewrite not_elem_of_cons. tauto.
      * lia.
    + rewrite filter_cons_False by done. done.
Qed.

Lemma sweep_entries_values (now : Z) (l : list (K * cacheValue)) (c : LRUCache) :
  values (sweep_entries now l c).1
    = filter (λ kv, kv.1 ∉ (expired_entries now l).*1) (values c).
Proof. apply (sweep_loop now l (c, 0)). Qed.

Lemma sweep_entries_queue (now : Z) (l : list (K * cacheValue)) (c : LRUCache) :
  queue (sweep_entries now l c).1
    = filter (λ e, eid e ∉ (λ kv, eid (link kv.2)) <$> expired_entries now l)
             (queue c).
Proof. apply (sweep_loop now l (c, 0)). Qed.

Lemma sweep_entries_count (now : Z) (l : list (K * cacheValue)) (c : LRUCache) :
  (sweep_entries now l c).2 = Z.of_nat (length (expired_entries now l)).
Proof. apply (sweep_loop now l (c, 0)). Qed.

Lemma LRUCache_eq (a b : LRUCache) :
  values a = values b → queue a = queue b → maxSize a = maxSize b →
  defaultTTL a = defaultTTL b → deleteCallback a = deleteCallback b →
  next_eid a = next_eid b → callback_log a = callback_log b → a = b.
Proof. destruct a, b; simpl; intros; by subst. Qed.

(** The order in which the loop visits the entries does not matter. *)
Lemma sweep_entries_order (now : Z) (l l' : list (K * cacheValue))
    (c : LRUCache) :
  l ≡ₚ l' → sweep_entries now l c = sweep_entries now l' c.
Proof.
  intros Hp. unfold sweep_entries.
  destruct (sweep_loop now l (c, 0))
    as (Hv & Hq & Hn & H4 & H5 & H6 & H7 & H8).
  destruct (sweep_loop now l' (c, 0))
    as (Hv' & Hq' & Hn' & H4' & H5' & H6' & H7' & H8').
  apply injective_projections.
  - apply LRUCache_eq; try congruence.
    + rewrite Hv, Hv'. apply map_filter_ext. intros k cv _. simpl.
      unfold expired_entries. by rewrite Hp.
    + rewrite Hq, Hq'. apply list_filter_iff. intros e.
      unfold expired_entries. by rewrite Hp.
  - rewrite Hn, Hn'. unfold expired_entries. by rewrite Hp.
Qed.

(** The entries a pass leaves in the map: those that are not expired. *)
Lemma cleanInterval_values (now : Z) (c : LRUCache) :
  values (cleanInterval now c)
    = filter (λ kv, ¬ expired now kv.2) (values c).
Proof.
  unfold cleanInterval. cbn [values notify]. rewrite sweep_entries_values.
  apply map_filter_ext. intros k cv Hk. simpl. unfold expired_entries. split.
  - intros Hn Hexp. apply Hn. apply list_elem_of_fmap. exists (k, cv).
    split; [done|]. apply list_elem_of_filter. split; [done|].
    by apply elem_of_map_to_list.
  - intros Hn Hin. apply list_elem_of_fmap in Hin as ([k' cv'] & Hk' & Hin).
    simpl in Hk'. subst k'. apply list_elem_of_filter in Hin as [Hexp Hin].
    apply elem_of_map_to_list in Hin. simpl in Hexp. congruence.
Qed.

(** The nodes a pass leaves in the queue, in their former order. *)
Lemma cleanInterval_queue (now : Z) (c : LRUCache) :
  store_queue_corr c →
  queue (cleanInterval now c) = filter (λ e, ¬ stale now e) (queue c).
Proof.
  intros Hc. unfold cleanInterval. cbn [queue notify].
  rewrite sweep_entries_queue. apply filter_ext_in. intros e He.
  unfold expired_entries. split.
  - intros Hn Hst. apply Hn.
    destruct (corr_queue c Hc e He) as (cv & Hcv & Hl).
    apply list_elem_of_fmap. exists (key_of e, cv). simpl.
    split; [by rewrite Hl|]. apply list_elem_of_filter. simpl.
    split; [unfold expired; by rewrite Hl|]. by apply elem_of_map_to_list.
  - intros Hn Hin. apply list_elem_of_fmap in Hin as ([k' cv'] & Hk' & Hin).
    simpl in Hk'. apply list_elem_of_filter in Hin as [Hexp Hin].
    apply elem_of_map_to_list in Hin. simpl in Hexp.
    destruct (corr_store c Hc k' cv' Hin) as [Hin' _].
    apply Hn. unfold stale.
    by rewrite (eid_inj_queue (queue c) e (link cv') (corr_nodup c Hc) He Hin' Hk').
Qed.

(** The count of a pass: the number of expired entries of the map. *)
Lemma cleanInterval_count (now : Z) (c : LRUCache) :
  (sweep_entries now (map_to_list (values c)) c).2
    = Z.of_nat (size (filter (λ kv, expired now kv.2) (values c))).
Proof.
  rewrite sweep_entries_count. f_equal. unfold expired_entries.
  rewrite map_filter_alt, map_size_list_to_map; [done|].
  eapply sublist_NoDup; [|apply fmap_sublist, sublist_filter].
  apply NoDup_fst_map_to_list.
Qed.

Lemma wf_cleanInterval (now : Z) (c : LRUCache) :
  wf c → wf (cleanInterval now c).
Proof.
  intros [Hc Ha]. pose proof Hc as [H1 H2 H3].
  split; [split|].
  - intros k cv. rewrite cleanInterval_values, cleanInterval_queue by done.
    intros [Hk Hne]%map_lookup_filter_Some. simpl in Hne.
    destruct (H1 k cv Hk) as [Hin Hkey]. split; [|done].
    apply list_elem_of_filter. done.
  - intros e. rewrite cleanInterval_values, cleanInterval_queue by done.
    intros [Hne He]%list_elem_of_filter.
    destruct (H2 e He) as (cv & Hcv & Hl). exists cv. split; [|done].
    apply map_lookup_filter_Some. split; [done|]. simpl.
    unfold expired. by rewrite Hl.
  - rewrite cleanInterval_queue by done.
    eapply sublist_NoDup; [exact H3|]. apply fmap_sublist, sublist_filter.
  - intros e. rewrite cleanInterval_queue by done.
    intros [_ He]%list_elem_of_filter.
    unfold cleanInterval. cbn [next_eid notify].
    destruct (sweep_loop now (map_to_list (values c)) (c, 0))
      as (_ & _ & _ & _ & _ & _ & Hn & _).
    unfold sweep_entries. rewrite Hn. by apply Ha.
Qed.

(** ** Runs: every reachable state is well-formed and within capacity *)

Lemma run_snoc (tr : list op) (o : op) (c : LRUCache) :
  run (tr ++ [o]) c = run tr c ≫= step o.
Proof. unfold run. by rewrite foldl_app. Qed.

Lemma step_fields (o : op) (c c' : LRUCache) :
  step o c = Some c' →
  maxSize c' = maxSize c ∧ defaultTTL c' = defaultTTL c ∧
  deleteCallback c' = deleteCallback c.
Proof.
  destruct o as [k|k v now|k| |now]; simpl; intros Hs.
  - injection Hs as <-. unfold Get. by destruct (values c !! k).
  - unfold Set_, Set_update, Set_insert in Hs.
    destruct (values c !! k) as [old|]; [by injection Hs as <-|].
    destruct (decide _); [|by injection Hs as <-].
    destruct (Back _) as [item|]; [|done]. simpl in Hs.
    destruct (_ !! _) as [cv|]; [|done]. by injection Hs as <-.
  - injection Hs as <-. unfold Delete. by destruct (values c !! k).
  - by injection Hs as <-.
  - injection Hs as <-. unfold cleanInterval. simpl.
    destruct (sweep_loop now (map_to_list (values c)) (c, 0))
      as (_ & _ & _ & H4 & H5 & H6 & _). done.
Qed.

Lemma wf_step (o : op) (c : LRUCache) :
  wf c → ∃ c', step o c = Some c' ∧ wf c'.
Proof.
  intros Hwf. destruct o as [k|k v now|k| |now]; simpl.
  - eexists. split; [done|]. by apply wf_Get.
  - by apply wf_Set.
  - eexists. split; [done|]. by apply wf_Delete.
  - eexists. split; [done|]. apply wf_Clean.
  - eexists. split; [done|]. by apply wf_cleanInterval.
Qed.

Lemma length_Remove_le (e : Element) (l : list Element) :
  (length (Remove e l) ≤ length l)%nat.
Proof. apply sublist_length, Remove_sublist. Qed.

Lemma bounded_step (o : op) (c c' : LRUCache) :
  wf c → bounded c → step o c = Some c' → bounded c'.
Proof.
  intros Hwf Hb Hs. pose proof (step_fields o c c' Hs) as (Hm & _ & _).
  unfold bounded, Size in *. rewrite Hm. clear Hm.
  pose proof Hwf as [Hc _].
  destruct o as [k|k v now|k| |now]; simpl in Hs.
  - injection Hs as <-. unfold Get.
    destruct (values c !! k) as [cv|] eqn:Hk; simpl; [|done].
    rewrite MoveToFront_Permutation; [done|apply (corr_nodup c Hc)|].
    apply (corr_store c Hc k cv Hk).
  - unfold Set_, Set_update in Hs.
    destruct (values c !! k) as [old|] eqn:Hk.
    + injection Hs as <-. simpl.
      rewrite MoveToFront_Permutation; [done|apply (corr_nodup c Hc)|].
      apply (corr_store c Hc k old Hk).
    + destruct (decide (maxSize c < Z.of_nat (S (length (queue c)))))
        as [Hlt|Hge].
      * destruct (Set_insert_evicts k v now c Hwf Hk Hlt)
          as (l & item & cv & Hq & _ & _ & Hi & Hq' & _).
        rewrite Hi in Hs. injection Hs as <-. rewrite Hq'.
        simpl in Hq. apply (f_equal length) in Hq.
        rewrite length_app in Hq. simpl in Hq. lia.
      * rewrite Set_insert_fits in Hs by lia. injection Hs as <-. simpl. lia.
  - injection Hs as <-. unfold Delete.
    destruct (values c !! k) as [cv|]; simpl; [|done].
    pose proof (length_Remove_le (link cv) (queue c)). lia.
  - injection Hs as <-. simpl. lia.
  - injection Hs as <-. rewrite cleanInterval_queue by done.
    pose proof (length_filter (λ e, ¬ stale now e) (queue c)). lia.
Qed.


(** Every state a caller can reach from a new cache. *)
Lemma run_invariant (config : ConfigBuilder) (tr : list op) (c : LRUCache) :
  run tr (NewLRUCache config) = Some c →
  wf c ∧ bounded c ∧ configured config c.
Proof.
  revert c. induction tr as [|o tr IH] using rev_ind; intros c Hr.
  - injection Hr as <-. split_and!; try done.
    + apply wf_NewLRUCache.
    + unfold bounded, Size. simpl. lia.
  - rewrite run_snoc in Hr.
    destruct (run tr (NewLRUCache config)) as [c0|] eqn:Hr0; [|done].
    simpl in Hr. destruct (IH c0 eq_refl) as (Hwf & Hb & Hm & Hd & Hcb).
    destruct (wf_step o c0 Hwf) as (c' & Hs & Hwf').
    assert (c' = c) as -> by congruence.
    destruct (step_fields o c0 c Hs) as (Hm' & Hd' & Hcb').
    split_and!; [done|apply (bounded_step o c0 c Hwf Hb Hs)|].
    unfold configured. split_and!; congruence.
Qed.

(** ** Capacity *)

Lemma wf_written (k : K) (v : V) (now : Z) (c : LRUCache) :
  wf c → wf (written k v now c).
Proof.
  intros Hwf. unfold written, Set_update.
  destruct (values c !! k) as [old|] eqn:Hk.
  - by apply wf_update.
  - by apply wf_pushed.
Qed.

Lemma bounded_capacity (c : LRUCache) :
  wf c → bounded c → 0 ≤ maxSize c →
  Z.of_nat (size (values c)) ≤ maxSize c.
Proof.
  intros [Hc _] Hb Hm. rewrite <- corr_Size by done. unfold bounded in Hb. lia.
Qed.

(** C1.  In every state reached from a new cache whose capacity
    [maxSize] is not negative, [Set] returns, the number of stored
    entries is then at most [maxSize], and [Set] evicts at most one
    entry: when the number of entries after the write exceeds
    [maxSize] it removes the node at the back of the queue and the
    entry stored under its key, and nothing else; otherwise it removes
    nothing. *)
Theorem Set_within_capacity (config : ConfigBuilder) (tr : list op)
    (c : LRUCache) (k : K) (v : V) (now : Z) :
  0 ≤ b_maxSize config →
  run tr (NewLRUCache config) = Some c →
  ∃ c', Set_ k v now c = Some c' ∧
    Z.of_nat (size (values c')) ≤ maxSize c' ∧
    Size c' ≤ maxSize c' ∧
    if decide (maxSize c < Z.of_nat (size (values (written k v now c))))
    then ∃ l item cv,
        queue (written k v now c) = l ++ [item] ∧
        values (written k v now c) !! key_of item = Some cv ∧
        queue c' = l ∧
        values c' = delete (key_of item) (values (written k v now c))
    else c' = written k v now c.
Proof.
  intros Hpos Hr.
  destruct (run_invariant config tr c Hr) as (Hwf & Hb & Hm & _ & _).
  destruct (wf_Set k v now c Hwf) as (c' & Hs & Hwf').
  exists c'. split; [done|].
  assert (bounded c') as Hb' by apply (bounded_step (OpSet k v now) c c' Hwf Hb Hs).
  destruct (step_fields (OpSet k v now) c c' Hs) as (Hm' & _ & _).
  assert (0 ≤ maxSize c') as Hpos' by lia.
  split; [by apply bounded_capacity|].
  split; [unfold bounded in Hb'; lia|].
  pose proof (wf_written k v now c Hwf) as [Hcw _].
  rewrite <- (corr_Size _ Hcw).
  unfold Set_ in Hs. unfold written.
  destruct (Set_update k v c) as [c1|] eqn:Hu.
  - injection Hs as ->. destruct (decide _) as [Hlt|]; [|done].
    unfold bounded in Hb'. lia.
  - unfold Set_update in Hu.
    destruct (values c !! k) as [old|] eqn:Hk; [done|].
    unfold Size. cbn [queue pushed alloc with_store length].
    destruct (decide _) as [Hlt|Hge].
    + destruct (Set_insert_evicts k v now c Hwf Hk Hlt)
        as (l & item & cv & Hq & Hcv & _ & Hi & Hq' & Hv').
      exists l, item, cv. rewrite Hi in Hs. injection Hs as <-. done.
    + rewrite Set_insert_fits in Hs by lia. by injection Hs as <-.
Qed.

(** ** The store-queue correspondence is an invariant *)

(** C5.  Each operation ([Get], [Set], [Delete], [Clean] and one pass
    of the sweeper), run on a state in which the store and the queue
    correspond, returns a state in which they correspond: every stored
    key has exactly one node in the queue, every node of the queue
    carries a stored key and is the only node of that key, and
    [Size()] is the number of stored keys. *)
Theorem operations_preserve_correspondence (o : op) (c : LRUCache) :
  store_queue_corr c → alloc_ok c →
  ∃ c', step o c = Some c' ∧
    store_queue_corr c' ∧ alloc_ok c' ∧
    (∀ k, is_Some (values c' !! k) →
          length (nodes_of k (queue c')) = 1%nat) ∧
    (∀ e, e ∈ queue c' →
          is_Some (values c' !! key_of e) ∧
          nodes_of (key_of e) (queue c') = [e]) ∧
    Size c' = Z.of_nat (size (values c')).
Proof.
  intros Hc Ha.
  destruct (wf_step o c (conj Hc Ha)) as (c' & Hs & Hc' & Ha').
  exists c'. split_and!; try done.
  - intros k [cv Hcv]. by rewrite (corr_one_node c' k cv).
  - intros e He. destruct (corr_queue c' Hc' e He) as (cv & Hcv & Hl).
    split; [by exists cv|]. by rewrite (corr_one_node c' _ cv), Hl.
  - by apply corr_Size.
Qed.

(** ** Stored values *)

Lemma last_set_snoc (k : K) (tr : list op) (o : op) :
  last_set k (tr ++ [o])
    = match set_value k o with Some v => Some v | None => last_set k tr end.
Proof.
  unfold last_set. rewrite omap_app. simpl.
  destruct (set_value k o) as [v|].
  - apply last_snoc.
  - by rewrite app_nil_r.
Qed.

(** What one operation leaves under a key: the value it sets, or the
    value that was there. *)
Lemma step_values (o : op) (c c' : LRUCache) (k : K) (cv : cacheValue) :
  step o c = Some c' → values c' !! k = Some cv →
  match set_value k o with
  | Some v => data cv = v
  | None => ∃ cv0, values c !! k = Some cv0 ∧ data cv0 = data cv
  end.
Proof.
  destruct o as [k0|k0 v now|k0| |now]; simpl; intros Hs Hk.
  - injection Hs as <-. exists cv. split; [|done]. revert Hk.
    unfold Get. by destruct (values c !! k0).
  - assert (values (written k0 v now c) !! k = Some cv) as Hw.
    { revert Hs. unfold Set_, written, Set_insert.
      destruct (Set_update k0 v c) as [c1|]; [by intros [= <-]|].
      destruct (decide _); [|by intros [= <-]].
      destruct (Back _) as [item|]; [|done]. simpl.
      destruct (_ !! key (Value item)) as [cv1|]; [|done]. simpl.
      intros [= <-]. simpl in Hk. by apply lookup_delete_Some in Hk as [_ Hk]. }
    clear Hs Hk. revert Hw. unfold written, Set_update.
    destruct (values c !! k0) as [old|]; simpl;
      (destruct (decide (k0 = k)) as [->|Hne];
       [rewrite lookup_insert_eq; by intros [= <-]
       |rewrite lookup_insert_ne by done; eauto]).
  - injection Hs as <-. revert Hk. unfold Delete.
    destruct (values c !! k0) as [cv0|]; simpl; [|eauto].
    intros [_ Hk]%lookup_delete_Some. eauto.
  - injection Hs as <-. simpl in Hk. by rewrite lookup_empty in Hk.
  - injection Hs as <-. rewrite cleanInterval_values in Hk.
    apply map_lookup_filter_Some in Hk as [Hk _]. eauto.
Qed.

(** In every reachable state, the value stored under a key is the one
    supplied by the most recent [Set] of that key. *)
Lemma run_values (config : ConfigBuilder) (tr : list op) (c : LRUCache)
    (k : K) (cv : cacheValue) :
  run tr (NewLRUCache config) = Some c → values c !! k = Some cv →
  last_set k tr = Some (data cv).
Proof.
  revert c cv. induction tr as [|o tr IH] using rev_ind; intros c cv Hr Hk.
  - injection Hr as <-. simpl in Hk. by rewrite lookup_empty in Hk.
  - rewrite run_snoc in Hr.
    destruct (run tr (NewLRUCache config)) as [c0|] eqn:Hr0; [|done].
    simpl in Hr. pose proof (step_values o c0 c k cv Hr Hk) as Hv.
    rewrite last_set_snoc. destruct (set_value k o) as [v|].
    + by rewrite Hv.
    + destruct Hv as (cv0 & Hk0 & <-). by apply (IH c0).
Qed.

(** C6.  In every state reached from a new cache, [Get] of a stored key
    returns, with found = true, the value supplied by the most recent
    [Set] of that key, keeps the stored entries, and moves the node of
    the key to the front of the queue, the other nodes keeping their
    order; [Get] of a key that is not stored returns found = false and
    leaves the state unchanged. *)
Theorem Get_returns_latest_and_promotes (config : ConfigBuilder)
    (tr : list op) (c : LRUCache) (k : K) :
  run tr (NewLRUCache config) = Some c →
  (∀ cv, values c !! k = Some cv →
     last_set k tr = Some (data cv) ∧
     (Get k c).1 = Some (data cv) ∧
     values (Get k c).2 = values c ∧
     callback_log (Get k c).2 = callback_log c ∧
     key_of (link cv) = k ∧
     ∃ l1 l2, queue c = l1 ++ link cv :: l2 ∧
              queue (Get k c).2 = link cv :: l1 ++ l2) ∧
  (values c !! k = None → Get k c = (None, c)).
Proof.
  intros Hr. destruct (run_invariant config tr c Hr) as ([Hc _] & _ & _).
  split.
  - intros cv Hk. split; [by apply (run_values config tr c)|].
    unfold Get. rewrite Hk. simpl. split_and!; try done.
    + apply (corr_store c Hc k cv Hk).
    + destruct (corr_store c Hc k cv Hk) as [Hin _].
      apply list_elem_of_split in Hin as (l1 & l2 & Hq).
      exists l1, l2. split; [done|]. rewrite Hq.
      apply MoveToFront_split. rewrite <- Hq. apply (corr_nodup c Hc).
  - intros Hk. unfold Get. by rewrite Hk.
Qed.

(** ** [Set] of a stored key, [Delete] and [Clean] *)

(** C10.  [Set] of a key that is stored replaces the value and moves
    the node of the key to the front of the queue.  The entry keeps its
    node, hence its expiry time; every other entry keeps its value and
    its node; where the store and the queue correspond, the other nodes
    keep their order behind the promoted node.  Nothing is evicted and
    the callback is not called. *)
Theorem Set_update_frame (c : LRUCache) (k : K) (old : cacheValue)
    (v : V) (now : Z) :
  values c !! k = Some old →
  ∃ c', Set_ k v now c = Some c' ∧
    values c' !! k = Some {| data := v; link := link old |} ∧
    (∀ cv', values c' !! k = Some cv' →
            link cv' = link old ∧
            ttl (Value (link cv')) = ttl (Value (link old))) ∧
    (∀ k', k' ≠ k → values c' !! k' = values c !! k') ∧
    queue c' = MoveToFront (link old) (queue c) ∧
    (store_queue_corr c →
     ∃ l1 l2, queue c = l1 ++ link old :: l2 ∧
              queue c' = link old :: l1 ++ l2) ∧
    size (values c') = size (values c) ∧
    callback_log c' = callback_log c.
Proof.
  intros Hk. unfold Set_, Set_update. rewrite Hk.
  eexists. split; [done|]. simpl. split_and!.
  - apply lookup_insert_eq.
  - intros cv'. rewrite lookup_insert_eq. by intros [= <-].
  - intros k' Hne. by rewrite lookup_insert_ne.
  - done.
  - intros Hc. destruct (corr_store c Hc k old Hk) as [Hin _].
    apply list_elem_of_split in Hin as (l1 & l2 & Hq).
    exists l1, l2. split; [done|]. rewrite Hq.
    apply MoveToFront_split. rewrite <- Hq. apply (corr_nodup c Hc).
  - apply map_size_insert_Some. by rewrite Hk.
  - done.
Qed.

(** C7.  [Delete] of a stored key removes the entry and unlinks its
    node from the queue and calls the callback, when one is configured,
    once with count 1; where the store and the queue correspond, no
    node of the key is left and the other nodes keep their order.
    [Delete] of a key that is not stored changes nothing and calls
    nothing. *)
Theorem Delete_removes_and_notifies (c : LRUCache) (k : K) :
  (∀ cv, values c !! k = Some cv →
     values (Delete k c) = delete k (values c) ∧
     queue (Delete k c) = Remove (link cv) (queue c) ∧
     callback_log (Delete k c)
       = (if deleteCallback c then callback_log c ++ [1]
          else callback_log c) ∧
     (store_queue_corr c →
      (∃ l1 l2, queue c = l1 ++ link cv :: l2 ∧
                queue (Delete k c) = l1 ++ l2) ∧
      nodes_of k (queue (Delete k c)) = [])) ∧
  (values c !! k = None → Delete k c = c).
Proof.
  split.
  - intros cv Hk. unfold Delete. rewrite Hk. simpl. split_and!; try done.
    intros Hc. pose proof (corr_unsafeDelete c k cv Hc Hk) as Hc'. split.
    + destruct (corr_store c Hc k cv Hk) as [Hin _].
      apply list_elem_of_split in Hin as (l1 & l2 & Hq).
      exists l1, l2. split; [done|]. rewrite Hq.
      apply Remove_split. rewrite <- Hq. apply (corr_nodup c Hc).
    + apply (corr_no_node (unsafeDelete k cv c)); [done|].
      simpl. apply lookup_delete_eq.
  - intros Hk. unfold Delete. by rewrite Hk.
Qed.

(** C8.  After [Clean] the cache is empty: [Size()] is 0, no key is
    stored and [Get] of every key returns found = false; [Clean] does
    not call the callback, whatever was stored. *)
Theorem Clean_empties_silently (c : LRUCache) :
  Size (Clean c) = 0 ∧
  values (Clean c) = ∅ ∧
  queue (Clean c) = [] ∧
  (∀ k, (Get k (Clean c)).1 = None) ∧
  callback_log (Clean c) = callback_log c.
Proof.
  split_and!; done.
Qed.

(** ** Expiry *)

Lemma expired_lt (now : Z) (cv : cacheValue) :
  expired now cv ↔ ttl (Value (link cv)) < now.
Proof. unfold expired. lia. Qed.

Lemma stale_lt (now : Z) (e : Element) : stale now e ↔ ttl (Value e) < now.
Proof. unfold stale. lia. Qed.

(** C4, as the code has it.  One pass of the sweeper at clock reading
    [now], from any state, removes exactly the entries whose expiry
    time is strictly before [now] and keeps every entry whose expiry
    time is [now] or later.  After the scan the callback, when one is
    configured, is called once, with the number of entries the pass
    removed.  Where the store and the queue correspond, the nodes of
    the removed entries, and no others, leave the queue, the nodes kept
    staying in order. *)
Theorem sweep_removes_stale_and_notifies_once (now : Z) (c : LRUCache) :
  values (cleanInterval now c)
    = filter (λ kv, ¬ ttl (Value (link kv.2)) < now) (values c) ∧
  callback_log (cleanInterval now c)
    = (if deleteCallback c
       then callback_log c ++ [Z.of_nat (stale_count now c)]
       else callback_log c) ∧
  size (values c)
    = (stale_count now c + size (values (cleanInterval now c)))%nat ∧
  (store_queue_corr c →
   queue (cleanInterval now c)
     = filter (λ e, ¬ ttl (Value e) < now) (queue c)).
Proof.
  assert (values (cleanInterval now c)
          = filter (λ kv, ¬ ttl (Value (link kv.2)) < now) (values c)) as Hv.
  { rewrite cleanInterval_values. apply map_filter_ext.
    intros k cv _. simpl. by rewrite expired_lt. }
  assert (filter (λ kv, expired now kv.2) (values c)
          = filter (λ kv, ttl (Value (link kv.2)) < now) (values c)) as Hf.
  { apply map_filter_ext. intros k cv _. simpl. by rewrite expired_lt. }
  split_and!.
  - done.
  - unfold cleanInterval. cbn [callback_log notify deleteCallback].
    destruct (sweep_loop now (map_to_list (values c)) (c, 0))
      as (_ & _ & _ & _ & _ & H6 & _ & H8).
    change (deleteCallback (sweep_entries now (map_to_list (values c)) c).1
            = deleteCallback c) in H6.
    change (callback_log (sweep_entries now (map_to_list (values c)) c).1
            = callback_log c) in H8.
    rewrite H6, H8, cleanInterval_count, Hf. done.
  - rewrite Hv. unfold stale_count.
    rewrite <- (map_filter_union_complement
                  (λ kv, ttl (Value (link kv.2)) < now) (values c)) at 1.
    apply map_size_disj_union, map_disjoint_filter_complement.
  - intros Hc. rewrite cleanInterval_queue by done. apply list_filter_iff.
    intros e. by rewrite stale_lt.
Qed.

Lemma Set_insert_lookup (k : K) (v : V) (now : Z) (c c' : LRUCache)
    (k' : K) (cv : cacheValue) :
  Set_insert k v now c = Some c' → values c' !! k' = Some cv →
  values (pushed k v now c) !! k' = Some cv.
Proof.
  unfold Set_insert. destruct (decide _); [|by intros [= <-]].
  destruct (Back _) as [item|]; [|done]. cbn [mbind option_bind].
  destruct (_ !! key (Value item)) as [cv1|]; [|done].
  cbn [mbind option_bind]. intros [= <-]. simpl.
  by intros [_ Hk]%lookup_delete_Some.
Qed.

(** C3, as the code has it.  An entry inserted at time [T] carries the
    expiry time [T + defaultTTL].  [Get] does not look at it: as long
    as the entry is stored, [Get] returns it, whatever the clock reads.
    The entry becomes unreachable once a pass of the sweeper runs at a
    time strictly after [T + defaultTTL]; a pass at an earlier time, or
    exactly at [T + defaultTTL], keeps it. *)
Theorem expiry_is_enforced_by_the_sweep (c c1 : LRUCache) (k : K) (v : V)
    (T : Z) (cv : cacheValue) :
  values c !! k = None →
  Set_ k v T c = Some c1 →
  values c1 !! k = Some cv →
  ttl (Value (link cv)) = T + defaultTTL c ∧
  (∀ now, (Get_at now k c1).1 = Some v) ∧
  (∀ now, T + defaultTTL c < now →
          (Get_at now k (cleanInterval now c1)).1 = None) ∧
  (∀ now, now ≤ T + defaultTTL c →
          (Get_at now k (cleanInterval now c1)).1 = Some v).
Proof.
  intros Hk Hs Hk1. unfold Set_, Set_update in Hs. rewrite Hk in Hs.
  pose proof (Set_insert_lookup k v T c c1 k cv Hs Hk1) as Hp.
  simpl in Hp. rewrite lookup_insert_eq in Hp. injection Hp as <-.
  split_and!.
  - done.
  - intros now. unfold Get_at, Get. by rewrite Hk1.
  - intros now Hlt. unfold Get_at, Get. rewrite cleanInterval_values.
    rewrite map_lookup_filter_None_2; [done|]. right.
    intros cv' Hcv'. rewrite Hk1 in Hcv'. injection Hcv' as <-. simpl.
    unfold expired. simpl. lia.
  - intros now Hle. unfold Get_at, Get. rewrite cleanInterval_values.
    rewrite (map_lookup_filter_Some_2
               (λ kv : K * cacheValue, ¬ expired now kv.2) _ _ _ Hk1); [done|].
    simpl. unfold expired. simpl. lia.
Qed.

(** ** Recency *)

Lemma last_touch_from_snoc (i : nat) (k : K) (tr : list op) (o : op) :
  last_touch_from i k (tr ++ [o])
    = if decide (touched o = Some k) then Some (i + length tr)%nat
      else last_touch_from i k tr.
Proof.
  revert i. induction tr as [|a tr IH]; intros i; simpl.
  - destruct (decide _); [f_equal; lia|done].
  - rewrite IH. destruct (decide (touched o = Some k)); [f_equal; lia|done].
Qed.

Lemma last_touch_from_bound (i t : nat) (k : K) (tr : list op) :
  last_touch_from i k tr = Some t → (i ≤ t < i + length tr)%nat.
Proof.
  revert i. induction tr as [|a tr IH]; intros i; simpl; [done|].
  destruct (last_touch_from (S i) k tr) as [j|] eqn:Hj.
  - intros [= <-]. specialize (IH _ Hj). lia.
  - destruct (decide _); [|done]. intros [= <-]. lia.
Qed.

Lemma last_touch_snoc (k : K) (tr : list op) (o : op) :
  last_touch k (tr ++ [o])
    = if decide (touched o = Some k) then Some (length tr)
      else last_touch k tr.
Proof. unfold last_touch. by rewrite last_touch_from_snoc. Qed.

Lemma last_touch_lt (k : K) (tr : list op) (t : nat) :
  last_touch k tr = Some t → (t < length tr)%nat.
Proof. intros Ht. apply last_touch_from_bound in Ht. lia. Qed.

Lemma StronglySorted_impl_in {A} (R1 R2 : relation A) (l : list A) :
  (∀ x y, x ∈ l → y ∈ l → R1 x y → R2 x y) →
  StronglySorted R1 l → StronglySorted R2 l.
Proof.
  induction l as [|a l IH]; intros Himp Hs; [constructor|].
  apply StronglySorted_cons in Hs as [Ha Hl].
  apply StronglySorted_cons. split.
  - apply Forall_forall. intros y Hy.
    apply Himp; [left|by right|]. by apply (proj1 (Forall_forall _ _) Ha).
  - apply IH; [|done]. intros x y Hx Hy. apply Himp; by right.
Qed.

Lemma Forall_sublist {A} (P : A → Prop) (l1 l2 : list A) :
  l1 `sublist_of` l2 → Forall P l2 → Forall P l1.
Proof.
  intros Hsub. rewrite !Forall_forall. intros Hall x Hx.
  apply Hall. by apply (elem_of_sublist l1).
Qed.

Lemma StronglySorted_sublist {A} (R : relation A) (l1 l2 : list A) :
  l1 `sublist_of` l2 → StronglySorted R l2 → StronglySorted R l1.
Proof.
  induction 1 as [|x l1 l2 Hsub IH|x l1 l2 Hsub IH]; intros Hs.
  - constructor.
  - apply StronglySorted_cons in Hs as [Hx Hl].
    apply StronglySorted_cons. split; [|by apply IH].
    by apply (Forall_sublist _ l1 l2).
  - apply StronglySorted_cons in Hs as [_ Hl]. by apply IH.
Qed.

Lemma recency_sublist (tr : list op) (q q' : list Element) :
  q' `sublist_of` q → recency_ordered tr q → recency_ordered tr q'.
Proof.
  intros Hsub [Hs Hf]. split.
  - by apply (StronglySorted_sublist _ q' q).
  - by apply (Forall_sublist _ q' q).
Qed.

(** An operation that touches the key of no node of [q] leaves the
    order of [q] as it is. *)
Lemma recency_keep (tr : list op) (o : op) (q : list Element) :
  (∀ e, e ∈ q → touched o ≠ Some (key_of e)) →
  recency_ordered tr q → recency_ordered (tr ++ [o]) q.
Proof.
  intros Hno [Hs Hf]. split.
  - apply (StronglySorted_impl_in (more_recent tr)); [|done].
    intros x y Hx Hy (tx & ty & Htx & Hty & Hlt). exists tx, ty.
    rewrite !last_touch_snoc, !decide_False by auto. done.
  - apply Forall_forall. intros e He. unfold stamped.
    rewrite last_touch_snoc, decide_False by auto.
    by apply (proj1 (Forall_forall _ _) Hf).
Qed.

(** A node whose key the operation touches goes in front of nodes
    whose keys it does not touch. *)
Lemma recency_front (tr : list op) (o : op) (e : Element)
    (q : list Element) :
  touched o = Some (key_of e) →
  (∀ x, x ∈ q → touched o ≠ Some (key_of x)) →
  recency_ordered tr q → recency_ordered (tr ++ [o]) (e :: q).
Proof.
  intros He Hno Hq. pose proof (recency_keep tr o q Hno Hq) as [Hs Hf].
  destruct Hq as [_ Hf0].
  assert (last_touch (key_of e) (tr ++ [o]) = Some (length tr)) as Hte.
  { by rewrite last_touch_snoc, decide_True. }
  split.
  - apply StronglySorted_cons. split; [|done].
    apply Forall_forall. intros x Hx.
    destruct (proj1 (Forall_forall _ _) Hf0 x Hx) as [tx Htx].
    exists (length tr), tx. split; [done|].
    rewrite last_touch_snoc, decide_False by auto.
    split; [done|]. by apply (last_touch_lt (key_of x)).
  - constructor; [|done]. unfold stamped. by rewrite Hte.
Qed.

Lemma corr_other_keys (c : LRUCache) (l1 l2 : list Element) (e x : Element) :
  store_queue_corr c → queue c = l1 ++ e :: l2 → x ∈ l1 ++ l2 →
  key_of x ≠ key_of e.
Proof.
  intros Hc Hq Hx Heq. pose proof (corr_keys_NoDup c Hc) as Hnd.
  rewrite Hq, fmap_app, fmap_cons in Hnd.
  apply NoDup_app in Hnd as (_ & Hdisj & Hnd2).
  apply NoDup_cons in Hnd2 as [Hn2 _].
  apply elem_of_app in Hx as [Hx|Hx].
  - apply (Hdisj (key_of x)); [by apply list_elem_of_fmap_2|].
    rewrite Heq. left.
  - apply Hn2. rewrite <- Heq. by apply list_elem_of_fmap_2.
Qed.

Lemma corr_absent_key (c : LRUCache) (k : K) (e : Element) :
  store_queue_corr c → values c !! k = None → e ∈ queue c → key_of e ≠ k.
Proof.
  intros Hc Hk He Heq. destruct (corr_queue c Hc e He) as (cv & Hcv & _).
  congruence.
Qed.

Lemma recency_promote (tr : list op) (o : op) (c : LRUCache) (k : K)
    (cv : cacheValue) :
  store_queue_corr c → values c !! k = Some cv → touched o = Some k →
  recency_ordered tr (queue c) →
  recency_ordered (tr ++ [o]) (MoveToFront (link cv) (queue c)).
Proof.
  intros Hc Hk Ho Hq. destruct (corr_store c Hc k cv Hk) as [Hin Hkey].
  apply list_elem_of_split in Hin as (l1 & l2 & Hl).
  rewrite Hl, MoveToFront_split by (rewrite <- Hl; apply (corr_nodup c Hc)).
  apply recency_front.
  - by rewrite Hkey.
  - intros x Hx. rewrite Ho. intros [= Heq].
    apply (corr_other_keys c l1 l2 (link cv) x Hc Hl Hx). congruence.
  - apply (recency_sublist tr (queue c)); [|done].
    rewrite Hl. apply sublist_app; [done|]. by apply sublist_cons.
Qed.

Lemma recency_written (tr : list op) (c : LRUCache) (k : K) (v : V)
    (now : Z) :
  store_queue_corr c → recency_ordered tr (queue c) →
  recency_ordered (tr ++ [OpSet k v now]) (queue (written k v now c)).
Proof.
  intros Hc Hq. unfold written, Set_update.
  destruct (values c !! k) as [old|] eqn:Hk.
  - by apply (recency_promote tr _ c k old).
  - simpl. apply recency_front; [done| |done].
    intros x Hx. simpl. intros [= Heq].
    by apply (corr_absent_key c k x).
Qed.

Lemma Set_queue_sublist (k : K) (v : V) (now : Z) (c c' : LRUCache) :
  Set_ k v now c = Some c' →
  queue c' `sublist_of` queue (written k v now c).
Proof.
  unfold Set_, written, Set_insert.
  destruct (Set_update k v c) as [c1|]; [by intros [= <-]|].
  destruct (decide _); [|by intros [= <-]].
  destruct (Back _) as [item|]; [|done]. cbn [mbind option_bind].
  destruct (_ !! key (Value item)) as [cv1|]; [|done].
  cbn [mbind option_bind]. intros [= <-]. apply Remove_sublist.
Qed.

Lemma recency_step (tr : list op) (o : op) (c c' : LRUCache) :
  store_queue_corr c → recency_ordered tr (queue c) → step o c = Some c' →
  recency_ordered (tr ++ [o]) (queue c').
Proof.
  intros Hc Hq Hs. destruct o as [k|k v now|k| |now]; simpl in Hs.
  - injection Hs as <-. unfold Get.
    destruct (values c !! k) as [cv|] eqn:Hk; simpl.
    + by apply (recency_promote tr _ c k cv).
    + apply recency_keep; [|done]. intros e He. simpl. intros [= Heq].
      by apply (corr_absent_key c k e).
  - apply (recency_sublist _ (queue (written k v now c))).
    + by apply Set_queue_sublist.
    + by apply recency_written.
  - injection Hs as <-.
    apply (recency_sublist _ (queue c)); [|by apply recency_keep].
    unfold Delete. destruct (values c !! k) as [cv|]; simpl; [|done].
    apply Remove_sublist.
  - injection Hs as <-. split; constructor.
  - injection Hs as <-.
    apply (recency_sublist _ (queue c)); [|by apply recency_keep].
    rewrite cleanInterval_queue by done. apply sublist_filter.
Qed.

(** In every reachable state the queue runs from the most recently to
    the least recently touched key. *)
Lemma run_recency (config : ConfigBuilder) (tr : list op) (c : LRUCache) :
  run tr (NewLRUCache config) = Some c → recency_ordered tr (queue c).
Proof.
  revert c. induction tr as [|o tr IH] using rev_ind; intros c Hr.
  - injection Hr as <-. split; constructor.
  - rewrite run_snoc in Hr.
    destruct (run tr (NewLRUCache config)) as [c0|] eqn:Hr0; [|done].
    simpl in Hr. destruct (run_invariant config tr c0 Hr0) as ([Hc _] & _).
    by apply (recency_step tr o c0 c Hc (IH c0 eq_refl)).
Qed.

Lemma Set_new_fits (k : K) (v : V) (now : Z) (c : LRUCache) :
  values c !! k = None → Z.of_nat (S (length (queue c))) ≤ maxSize c →
  Set_ k v now c = Some (pushed k v now c).
Proof.
  intros Hk Hle. unfold Set_, Set_update. rewrite Hk.
  by apply Set_insert_fits.
Qed.

(** The run of the scenario: capacity 2, insert [A], insert [B],
    [Get(A)], insert [C]. *)
Lemma scenario_run (config : ConfigBuilder) (A B C : K) (vA vB vC : V)
    (tA tB tC : Z) :
  b_maxSize config = 2 → A ≠ B → A ≠ C → B ≠ C →
  ∃ c, run [OpSet A vA tA; OpSet B vB tB; OpGet A; OpSet C vC tC]
           (NewLRUCache config) = Some c ∧
       (∃ cv, values c !! A = Some cv ∧ data cv = vA) ∧
       values c !! B = None ∧
       (∃ cv, values c !! C = Some cv ∧ data cv = vC) ∧
       key_of <$> queue c = [C; A].
Proof.
  intros Hm HAB HAC HBC. unfold run. simpl.
  rewrite Set_new_fits; [|done|simpl; lia]. simpl.
  rewrite Set_new_fits;
    [|simpl; by rewrite lookup_insert_ne|simpl; lia]. simpl.
  unfold Get at 1. cbn [values pushed alloc with_store].
  rewrite lookup_insert_ne, lookup_insert_eq by done.
  cbn [snd data link queue pushed alloc with_store next_eid NewLRUCache
       defaultTTL values].
  change (MoveToFront ?e [?x; ?y]) with [e; x].
  unfold Set_, Set_update. cbn [values with_store].
  rewrite !lookup_insert_ne, lookup_empty by done.
  unfold Set_insert.
  cbn [queue maxSize pushed alloc with_store length NewLRUCache].
  rewrite Hm. cbn [decide]. simpl.
  rewrite lookup_insert_ne, lookup_insert_eq by done. simpl.
  eexists. split; [reflexivity|]. simpl. split_and!.
  - eexists. rewrite lookup_delete_ne, !lookup_insert_ne, lookup_insert_eq by done.
    done.
  - apply lookup_delete_eq.
  - eexists. rewrite lookup_delete_ne, lookup_insert_eq by done. done.
  - done.
Qed.

Lemma Get_result (k : K) (c : LRUCache) :
  (Get k c).1 = data <$> values c !! k.
Proof. unfold Get. by destruct (values c !! k). Qed.

Lemma Get_values (k : K) (c : LRUCache) : values (Get k c).2 = values c.
Proof. unfold Get. by destruct (values c !! k). Qed.

(** [Set] on a well-formed state: nothing is evicted, or the back node
    of the queue after the write and the entry of its key are. *)
Lemma Set_cases (k : K) (v : V) (now : Z) (c c' : LRUCache) :
  wf c → Set_ k v now c = Some c' →
  c' = written k v now c ∨
  ∃ l item cv,
    queue (written k v now c) = l ++ [item] ∧
    values (written k v now c) !! key_of item = Some cv ∧
    link cv = item ∧
    values c' = delete (key_of item) (values (written k v now c)) ∧
    queue c' = l.
Proof.
  intros Hwf. unfold Set_, written.
  destruct (Set_update k v c) as [c1|] eqn:Hu; [intros [= <-]; by left|].
  unfold Set_update in Hu.
  destruct (values c !! k) as [old|] eqn:Hk; [done|].
  destruct (decide (maxSize c < Z.of_nat (S (length (queue c))))) as [Hlt|Hge].
  - destruct (Set_insert_evicts k v now c Hwf Hk Hlt)
      as (l & item & cv & Hq & Hcv & Hl & -> & Hq' & Hv').
    intros [= <-]. right. exists l, item, cv. done.
  - rewrite Set_insert_fits by lia. intros [= <-]. by left.
Qed.

(** C2.  In every run from a new cache, a key that a [Set] evicts is
    the least recently touched of the keys stored at that moment: of
    all keys stored after the write, it is the one whose last [Get] or
    [Set] is the oldest.  In particular, with capacity 2, after insert
    [A], insert [B], [Get(A)], insert [C], the evicted key is [B]:
    [Get(A)] and [Get(C)] succeed and [Get(B)] returns not-found. *)
Theorem eviction_is_least_recently_touched :
  (∀ (config : ConfigBuilder) (tr : list op) (c c' : LRUCache)
     (k : K) (v : V) (now : Z) (e : K),
     run tr (NewLRUCache config) = Some c →
     Set_ k v now c = Some c' →
     is_Some (values (written k v now c) !! e) →
     values c' !! e = None →
     ∃ te, last_touch e (tr ++ [OpSet k v now]) = Some te ∧
       ∀ k', is_Some (values (written k v now c) !! k') → k' ≠ e →
         ∃ t', last_touch k' (tr ++ [OpSet k v now]) = Some t' ∧
               (te < t')%nat) ∧
  (∀ (config : ConfigBuilder) (A B C : K) (vA vB vC : V) (tA tB tC : Z),
     b_maxSize config = 2 → A ≠ B → A ≠ C → B ≠ C →
     ∃ c, run [OpSet A vA tA; OpSet B vB tB; OpGet A; OpSet C vC tC]
              (NewLRUCache config) = Some c ∧
          values c !! B = None ∧
          (Get A c).1 = Some vA ∧
          (Get C (Get A c).2).1 = Some vC ∧
          (Get B (Get C (Get A c).2).2).1 = None).
Proof.
  split.
  - intros config tr c c' k v now e Hr Hs [cve Hcve] He.
    destruct (run_invariant config tr c Hr) as (Hwf & _ & _).
    pose proof Hwf as [Hc _].
    pose proof (recency_written tr c k v now Hc (run_recency config tr c Hr))
      as [Hsorted Hstamped].
    pose proof (wf_written k v now c Hwf) as [Hcw _].
    destruct (Set_cases k v now c c' Hwf Hs)
      as [->|(l & item & cv & Hq & Hcv & Hl & Hv' & Hq')]; [congruence|].
    assert (e = key_of item) as ->.
    { destruct (decide (e = key_of item)) as [|Hne]; [done|].
      rewrite Hv', lookup_delete_ne in He by done. congruence. }
    rewrite Hq in Hsorted, Hstamped.
    assert (stamped (tr ++ [OpSet k v now]) item) as [te Hte].
    { apply (proj1 (Forall_forall _ _) Hstamped).
      apply elem_of_app. right. left. }
    exists te. split; [done|]. intros k' [cv' Hcv'] Hne.
    destruct (corr_store _ Hcw k' cv' Hcv') as [Hin Hkey].
    rewrite Hq in Hin. apply elem_of_app in Hin as [Hin|Hin].
    + destruct (StronglySorted_app_1_elem_of _ l [item] (link cv') item
                  Hsorted Hin) as (ta & tb & Hta & Htb & Hlt); [left|].
      rewrite Hkey in Hta. exists ta. split; [done|]. congruence.
    + apply list_elem_of_singleton in Hin. congruence.
  - intros config A B C vA vB vC tA tB tC Hm HAB HAC HBC.
    destruct (scenario_run config A B C vA vB vC tA tB tC Hm HAB HAC HBC)
      as (c & Hr & (cvA & HA & HdA) & HB & (cvC & HC & HdC) & _).
    exists c. split; [done|]. split; [done|].
    rewrite !Get_result, !Get_values, HA, HB, HC. simpl. by subst.
Qed.

(** ** Callers running concurrently *)

(** A caller that runs alone does what the operation does. *)
Lemma caller_alone_Set (k : K) (v : V) (now : Z) (c : LRUCache) :
  run_schedule [0; 0]%nat [Ready (CallSet k v now)] c
    = c' ← Set_ k v now c; Some ([Returned], c').
Proof.
  unfold Set_. simpl. destruct (Set_update k v c) as [c1|]; simpl; [done|].
  by destruct (Set_insert k v now c).
Qed.

Lemma caller_alone_Get (k : K) (c : LRUCache) :
  run_schedule [0; 0]%nat [Ready (CallGet k)] c
    = Some ([Returned], (Get k c).2).
Proof. unfold Get. simpl. by destruct (values c !! k). Qed.

Lemma caller_alone_Delete (k : K) (c : LRUCache) :
  run_schedule [0; 0]%nat [Ready (CallDelete k)] c
    = Some ([Returned], Delete k c).
Proof. unfold Delete. simpl. by destruct (values c !! k). Qed.

(** * Further properties of the engine *)

(** ** Notifications *)

Lemma cleanInterval_log (now : Z) (c : LRUCache) :
  callback_log (cleanInterval now c)
    = if deleteCallback c
      then callback_log c ++ [Z.of_nat (stale_count now c)]
      else callback_log c.
Proof.
  unfold cleanInterval. cbn [callback_log notify deleteCallback].
  destruct (sweep_loop now (map_to_list (values c)) (c, 0))
    as (_ & _ & _ & _ & _ & H6 & _ & H8).
  change (deleteCallback (sweep_entries now (map_to_list (values c)) c).1
          = deleteCallback c) in H6.
  change (callback_log (sweep_entries now (map_to_list (values c)) c).1
          = callback_log c) in H8.
  rewrite H6, H8, cleanInterval_count. unfold stale_count.
  assert (filter (λ kv, expired now kv.2) (values c)
          = filter (λ kv, ttl (Value (link kv.2)) < now) (values c)) as ->.
  { apply map_filter_ext. intros k cv _. simpl. by rewrite expired_lt. }
  done.
Qed.

Lemma Set_log (k : K) (v : V) (now : Z) (c c' : LRUCache) :
  Set_ k v now c = Some c' → callback_log c' = callback_log c.
Proof.
  unfold Set_, Set_update, Set_insert.
  destruct (values c !! k) as [old|]; [by intros [= <-]|].
  destruct (decide _); [|by intros [= <-]].
  destruct (Back _) as [item|]; [|done]. cbn [mbind option_bind].
  destruct (_ !! key (Value item)) as [cv1|]; [|done].
  cbn [mbind option_bind]. by intros [= <-].
Qed.

(** X1.  The callback is called by [Delete] of a stored key, with
    count 1, and by a pass of the sweeper, with the number of entries
    the pass removes, and by nothing else: [Get], [Clean], [Delete] of
    a key that is not stored and [Set] do not call it, and [Set] does
    not call it when it evicts an entry either. *)
Theorem callback_is_called_by_Delete_and_sweep_only (o : op)
    (c c' : LRUCache) :
  step o c = Some c' →
  callback_log c'
    = callback_log c ++
      (if deleteCallback c
       then match o with
            | OpDelete k =>
                match values c !! k with Some _ => [1] | None => [] end
            | OpSweep now => [Z.of_nat (stale_count now c)]
            | _ => []
            end
       else []).
Proof.
  destruct o as [k|k v now|k| |now]; simpl; intros Hs.
  - injection Hs as <-. unfold Get.
    destruct (values c !! k), (deleteCallback c); simpl;
      by rewrite app_nil_r.
  - apply Set_log in Hs. rewrite Hs.
    destruct (deleteCallback c); by rewrite app_nil_r.
  - injection Hs as <-. unfold Delete.
    destruct (values c !! k); simpl;
      destruct (deleteCallback c); simpl; by rewrite ?app_nil_r.
  - injection Hs as <-. simpl. destruct (deleteCallback c); by rewrite app_nil_r.
  - injection Hs as <-. rewrite cleanInterval_log.
    destruct (deleteCallback c); by rewrite ?app_nil_r.
Qed.

(** ** Insert and look up *)

(** [Set] with room for one entry stores what it sets. *)
Lemma Set_stores (c : LRUCache) (k : K) (v : V) (now : Z) :
  wf c → 1 ≤ maxSize c →
  ∃ c' cv, Set_ k v now c = Some c' ∧
           values c' !! k = Some cv ∧ data cv = v ∧
           ∃ q, queue c' = link cv :: q ∧ key_of (link cv) = k.
Proof.
  intros Hwf Hm. pose proof Hwf as [Hc Ha].
  unfold Set_, Set_update. destruct (values c !! k) as [old|] eqn:Hk.
  - eexists _, _. split; [done|]. simpl. rewrite lookup_insert_eq.
    split; [done|]. split; [done|]. simpl.
    destruct (corr_store c Hc k old Hk) as [Hin Hkey].
    apply list_elem_of_split in Hin as (l1 & l2 & Hq).
    rewrite Hq, MoveToFront_split by (rewrite <- Hq; apply (corr_nodup c Hc)).
    eauto.
  - destruct (decide (maxSize c < Z.of_nat (S (length (queue c)))))
      as [Hlt|Hge].
    + destruct (Set_insert_evicts k v now c Hwf Hk Hlt)
        as (l & item & cv & Hq & Hcv & Hl & -> & Hq' & Hv').
      simpl in Hq. destruct l as [|e l].
      { destruct (queue c); [simpl in Hlt; lia|discriminate]. }
      injection Hq as <- Hq.
      assert (key_of item ≠ k) as Hne.
      { apply (corr_absent_key c k item Hc Hk). rewrite Hq.
        apply elem_of_app. right. left. }
      eexists _, _. split; [done|]. rewrite Hv', Hq'.
      rewrite lookup_delete_ne by done. simpl.
      rewrite lookup_insert_eq. split; [done|]. split; [done|]. simpl. eauto.
    + rewrite Set_insert_fits by lia. eexists _, _. split; [done|]. simpl.
      rewrite lookup_insert_eq. split; [done|]. split; [done|]. simpl. eauto.
Qed.

(** X2.  On a state in which the store and the queue correspond, with
    room for at least one entry, [Set] returns and the key it sets is
    then stored with the value set: [Get] of the key returns that
    value, and the node of the key is at the front of the queue.  The
    entry that [Set] evicts is never the one it has just written. *)
Theorem Set_then_Get (c : LRUCache) (k : K) (v : V) (now : Z) :
  store_queue_corr c → alloc_ok c → 1 ≤ maxSize c →
  ∃ c', Set_ k v now c = Some c' ∧
        (Get k c').1 = Some v ∧
        ∃ e q, queue c' = e :: q ∧ key_of e = k.
Proof.
  intros Hc Ha Hm.
  destruct (Set_stores c k v now (conj Hc Ha) Hm)
    as (c' & cv & Hs & Hk & Hd & q & Hq & Hkey).
  exists c'. split; [done|]. rewrite Get_result, Hk. simpl.
  split; [by rewrite Hd|]. eauto.
Qed.

(** X3.  A cache built with a capacity of zero, or a negative one,
    never stores anything: every state reached from it is empty, so
    [Get] of a key returns found = false even right after a [Set] of
    that key, which returns all the same. *)
Theorem cache_without_capacity_stores_nothing (config : ConfigBuilder)
    (tr : list op) (c : LRUCache) :
  b_maxSize config ≤ 0 →
  run tr (NewLRUCache config) = Some c →
  values c = ∅ ∧ queue c = [] ∧
  ∀ k v now, ∃ c', Set_ k v now c = Some c' ∧
                   values c' = ∅ ∧ (Get k c').1 = None.
Proof.
  intros Hm Hr.
  assert (∀ tr c, run tr (NewLRUCache config) = Some c →
                  values c = ∅ ∧ queue c = []) as Hempty.
  { clear tr c Hr. intros tr c Hr.
    destruct (run_invariant config tr c Hr) as ([Hc _] & Hb & Hcfg & _).
    pose proof (corr_Size c Hc) as HS. unfold bounded in Hb.
    rewrite Hcfg in Hb.
    assert (size (values c) = 0%nat) as Hz by lia.
    split; [by apply map_size_empty_inv|].
    unfold Size in *. destruct (queue c); [done|simpl in *; lia]. }
  destruct (Hempty tr c Hr) as [Hv Hq]. split; [done|]. split; [done|].
  intros k v now.
  destruct (run_invariant config tr c Hr) as (Hwf & _).
  destruct (wf_Set k v now c Hwf) as (c' & Hs & _).
  exists c'. split; [done|].
  destruct (Hempty (tr ++ [OpSet k v now]) c') as [Hv' _].
  { rewrite run_snoc, Hr. done. }
  split; [done|]. unfold Get. by rewrite Hv', lookup_empty.
Qed.

(** X4.  After [Delete] of a key, [Get] of that key returns
    found = false, a second [Delete] of it changes nothing and calls
    nothing, and [Get] of any other key finds what it found before. *)
Theorem Delete_then_Get (c : LRUCache) (k : K) :
  (Get k (Delete k c)).1 = None ∧
  Delete k (Delete k c) = Delete k c ∧
  ∀ k', k' ≠ k → (Get k' (Delete k c)).1 = (Get k' c).1.
Proof.
  assert (values (Delete k c) !! k = None) as Hgone.
  { unfold Delete. destruct (values c !! k) as [cv|] eqn:Hk; simpl; [|done].
    apply lookup_delete_eq. }
  split_and!.
  - unfold Get. by rewrite Hgone.
  - unfold Delete at 1. by rewrite Hgone.
  - intros k' Hne. rewrite !Get_result. f_equal. unfold Delete.
    destruct (values c !! k) as [cv|]; simpl; [|done].
    by rewrite lookup_delete_ne.
Qed.


(** ** Passes of the sweeper, one after the other *)

Lemma cleanInterval_size (now : Z) (c : LRUCache) :
  size (values c)
    = (stale_count now c + size (values (cleanInterval now c)))%nat.
Proof.
  rewrite cleanInterval_values. unfold stale_count.
  assert (filter (λ kv : K * cacheValue, ¬ expired now kv.2) (values c)
          = filter (λ kv, ¬ ttl (Value (link kv.2)) < now) (values c)) as ->.
  { apply map_filter_ext. intros k cv _. simpl. by rewrite expired_lt. }
  rewrite <- (map_filter_union_complement
                (λ kv, ttl (Value (link kv.2)) < now) (values c)) at 1.
  apply map_size_disj_union, map_disjoint_filter_complement.
Qed.

Lemma cleanInterval_twice_values (now1 now2 : Z) (c : LRUCache) :
  now1 ≤ now2 →
  values (cleanInterval now2 (cleanInterval now1 c))
    = values (cleanInterval now2 c).
Proof.
  intros Hle. rewrite !cleanInterval_values.
  apply map_filter_filter_l. intros k cv _. simpl. unfold expired. lia.
Qed.

(** X6.  A pass of the sweeper that follows an earlier pass removes
    what one pass at the later time would have removed: the entries
    left are the same, the nodes left are the same where the store and
    the queue correspond, and the two counts passed to the callback
    add up to the count of the single pass.  A second pass at the same
    time removes nothing and reports 0. *)
Theorem sweep_passes_compose (now1 now2 : Z) (c : LRUCache) :
  now1 ≤ now2 →
  values (cleanInterval now2 (cleanInterval now1 c))
    = values (cleanInterval now2 c) ∧
  (stale_count now1 c + stale_count now2 (cleanInterval now1 c)
     = stale_count now2 c)%nat ∧
  stale_count now2 (cleanInterval now2 c) = 0%nat ∧
  (store_queue_corr c → alloc_ok c →
   queue (cleanInterval now2 (cleanInterval now1 c))
     = queue (cleanInterval now2 c)).
Proof.
  intros Hle.
  pose proof (cleanInterval_twice_values now1 now2 c Hle) as Hv.
  assert (∀ t1 t2, t1 ≤ t2 →
            (stale_count t1 c + stale_count t2 (cleanInterval t1 c)
             = stale_count t2 c)%nat) as Hadd.
  { intros t1 t2 Ht.
    pose proof (cleanInterval_size t1 c) as H1.
    pose proof (cleanInterval_size t2 (cleanInterval t1 c)) as H2.
    pose proof (cleanInterval_size t2 c) as H3.
    rewrite (cleanInterval_twice_values t1 t2 c Ht) in H2. lia. }
  split_and!.
  - done.
  - by apply Hadd.
  - specialize (Hadd now2 now2). lia.
  - intros Hc Ha.
    pose proof (wf_cleanInterval now1 c (conj Hc Ha)) as [Hc1 _].
    rewrite !cleanInterval_queue by done.
    rewrite list_filter_filter. apply list_filter_iff.
    intros e. unfold stale. lia.
Qed.

(** ** Expiry times along a run *)

(** What an operation leaves under a key is the node that was there,
    or the node of this very insertion. *)
Lemma step_link (o : op) (c c' : LRUCache) (k : K) (cv : cacheValue) :
  step o c = Some c' → values c' !! k = Some cv →
  (∃ cv0, values c !! k = Some cv0 ∧ link cv0 = link cv) ∨
  (values c !! k = None ∧
   ∃ v now, o = OpSet k v now ∧
            ttl (Value (link cv)) = now + defaultTTL c).
Proof.
  destruct o as [k0|k0 v now|k0| |now]; simpl; intros Hs Hk.
  - injection Hs as <-. left. exists cv. split; [|done]. revert Hk.
    unfold Get. by destruct (values c !! k0).
  - assert (values (written k0 v now c) !! k = Some cv) as Hw.
    { revert Hs. unfold Set_, written.
      destruct (Set_update k0 v c) as [c1|]; [by intros [= <-]|].
      intros Hs. by apply (Set_insert_lookup k0 v now c c'). }
    clear Hs Hk. revert Hw. unfold written, Set_update.
    destruct (values c !! k0) as [old|] eqn:Hk0; simpl;
      (destruct (decide (k0 = k)) as [->|Hne];
       [rewrite lookup_insert_eq; intros [= <-]
       |rewrite lookup_insert_ne by done; eauto]).
    + left. eauto.
    + right. split; [done|]. eauto.
  - injection Hs as <-. left. revert Hk. unfold Delete.
    destruct (values c !! k0) as [cv0|]; simpl; [|eauto].
    intros [_ Hk]%lookup_delete_Some. eauto.
  - injection Hs as <-. simpl in Hk. by rewrite lookup_empty in Hk.
  - injection Hs as <-. left. rewrite cleanInterval_values in Hk.
    apply map_lookup_filter_Some in Hk as [Hk _]. eauto.
Qed.

Lemma prefix_snoc_cases {A} (p l : list A) (x : A) :
  p `prefix_of` l ++ [x] → p = l ++ [x] ∨ p `prefix_of` l.
Proof.
  intros [q Hq]. destruct (list_snoc_cases q) as [->|(q' & y & ->)].
  - left. by rewrite app_nil_r in Hq.
  - right. rewrite app_assoc in Hq. apply app_inj_tail in Hq as [-> _].
    by exists q'.
Qed.

(** X7.  The expiry time of an entry is fixed when it is inserted.  In
    every state reached from a new cache, the expiry time of a stored
    entry is [T + defaultTTL], where [T] is the clock reading of the
    [Set] that inserted it: that [Set] found the key absent, and the
    entry has been stored, on the same node, ever since.  No later
    [Get] or [Set] of the key has moved its expiry time. *)
Theorem expiry_is_fixed_at_insertion (config : ConfigBuilder)
    (tr : list op) (c : LRUCache) (k : K) (cv : cacheValue) :
  run tr (NewLRUCache config) = Some c →
  values c !! k = Some cv →
  ∃ tr1 v T tr2 c1,
    tr = tr1 ++ OpSet k v T :: tr2 ∧
    run tr1 (NewLRUCache config) = Some c1 ∧
    values c1 !! k = None ∧
    ttl (Value (link cv)) = T + b_defaultTTL config ∧
    ∀ p, p `prefix_of` tr2 →
      ∃ cp cvp, run (tr1 ++ OpSet k v T :: p) (NewLRUCache config) = Some cp ∧
                values cp !! k = Some cvp ∧ link cvp = link cv.
Proof.
  revert c cv. induction tr as [|o tr IH] using rev_ind; intros c cv Hr Hk.
  - injection Hr as <-. simpl in Hk. by rewrite lookup_empty in Hk.
  - pose proof Hr as Hr'. rewrite run_snoc in Hr.
    destruct (run tr (NewLRUCache config)) as [c0|] eqn:Hr0; [|done].
    simpl in Hr.
    destruct (run_invariant config tr c0 Hr0) as (_ & _ & _ & Hd & _).
    destruct (step_link o c0 c k cv Hr Hk)
      as [(cv0 & Hk0 & Hl)|(Hk0 & v & now & -> & Httl)].
    + destruct (IH c0 cv0 eq_refl Hk0)
        as (tr1 & v & T & tr2 & c1 & -> & Hr1 & Hk1 & Httl & Hpre).
      exists tr1, v, T, (tr2 ++ [o]), c1. split_and!; try done.
      * by rewrite <- app_assoc.
      * by rewrite <- Hl.
      * intros p [->|Hp]%prefix_snoc_cases.
        -- exists c, cv. split; [|done].
           by rewrite app_comm_cons, app_assoc.
        -- destruct (Hpre p Hp) as (cp & cvp & Hrp & Hkp & Hlp).
           exists cp, cvp. split_and!; [done|done|congruence].
    + exists tr, v, now, [], c0. split_and!; try done.
      * by rewrite <- Hd.
      * intros p ->%prefix_nil_inv. eauto.
Qed.

(** ** Callers that interleave *)

Lemma Set_update_absent (k : K) (v : V) (c : LRUCache) :
  values c !! k = None → Set_update k v c = None.
Proof. intros Hk. unfold Set_update. by rewrite Hk. Qed.

(** A queue of one node whose key is not stored, at capacity 1. *)
Lemma orphan_node (c : LRUCache) (e : Element) (k k' : K) (v : V) (now : Z) :
  values c = ∅ → queue c = [e] → key_of e = k → maxSize c = 1 → k' ≠ k →
  values c = ∅ ∧ key_of <$> queue c = [k] ∧
  Set_ k' v now c = None ∧
  ∃ c', Set_ k v now c = Some c' ∧ (Get k c').1 = None.
Proof.
  intros Hv Hq Hk Hm Hne. split; [done|]. split; [by rewrite Hq, <- Hk|].
  unfold Set_. rewrite !Set_update_absent by (rewrite Hv; apply lookup_empty).
  unfold Set_insert.
  cbn [queue maxSize pushed alloc with_store length]. rewrite Hq, Hm.
  cbn [decide length]. simpl.
  change (key (Value e)) with (key_of e). rewrite Hk, Hv.
  rewrite lookup_insert_ne, lookup_empty by done.
  rewrite lookup_insert_eq. simpl. split; [done|].
  eexists. split; [reflexivity|]. unfold Get. simpl.
  by rewrite lookup_delete_eq.
Qed.

(** X8.  What the race of two [Set] calls leaves behind makes later
    calls fail.  On a cache of capacity 1, two callers that set the
    same new key, each running its lookup before the other inserts,
    leave a node in the queue whose key is not stored.  From then on a
    [Set] of any other key panics, in the eviction, on the nil value
    it finds under the key of that node, and a [Set] of the key itself
    returns but leaves nothing stored. *)
Theorem race_then_Set_panics (config : ConfigBuilder) (k k' : K)
    (v1 v2 v : V) (now now' : Z) :
  b_maxSize config = 1 → k' ≠ k →
  ∃ c, run_schedule [0; 1; 0; 1]%nat (two_setters k v1 v2 now)
         (NewLRUCache config) = Some ([Returned; Returned], c) ∧
       values c = ∅ ∧ key_of <$> queue c = [k] ∧
       Set_ k' v now' c = None ∧
       ∃ c', Set_ k v now' c = Some c' ∧ (Get k c').1 = None.
Proof.
  intros Hm Hne. unfold two_setters. simpl.
  rewrite Set_update_absent by apply lookup_empty. simpl.
  rewrite Set_update_absent by apply lookup_empty. simpl.
  rewrite Set_insert_fits by (simpl; lia). simpl.
  unfold Set_insert at 1.
  cbn [queue maxSize pushed alloc with_store length NewLRUCache]. rewrite Hm.
  cbn [decide]. simpl. rewrite lookup_insert_eq. simpl.
  eexists. split; [reflexivity|].
  eapply orphan_node;
    [simpl; by rewrite !delete_insert_eq, delete_empty
    |reflexivity|reflexivity|exact Hm|done].
Qed.

Lemma MoveToFront_unlinked (e : Element) (l : list Element) :
  eid e ∉ eid <$> l → MoveToFront e l = l.
Proof.
  intros Hn. unfold MoveToFront, in_list.
  by rewrite bool_decide_eq_false_2.
Qed.

Lemma unlinked_Remove_self (e : Element) (l : list Element) :
  eid e ∉ eid <$> Remove e l.
Proof.
  intros (x & Hx & [_ Hne]%elem_of_Remove)%list_elem_of_fmap. congruence.
Qed.

Lemma unlinked_Remove (e e' : Element) (l : list Element) :
  eid e ∉ eid <$> l → eid e ∉ eid <$> Remove e' l.
Proof.
  intros Hn (x & Hx & [Hin _]%elem_of_Remove)%list_elem_of_fmap.
  apply Hn. rewrite Hx. by apply list_elem_of_fmap_2.
Qed.

Lemma local_ok_same (c c' : LRUCache) (g : caller) :
  queue c' ≡ₚ queue c → values c' = values c →
  local_ok c g → local_ok c' g.
Proof.
  intros Hq Hv. destruct g; simpl; unfold unlinked; rewrite ?Hq, ?Hv; done.
Qed.

Lemma local_ok_unsafeDelete (c : LRUCache) (k : K) (value : cacheValue)
    (g : caller) :
  values c !! k = Some value →
  local_ok c g → local_ok (unsafeDelete k value c) g.
Proof.
  intros Hk. destruct g as [f|v'| | k' v'|]; simpl; try done; unfold unlinked.
  - intros [Hin|Hn].
    + destruct (decide (eid (link v') = eid (link value))) as [Heq|Hne].
      * right. simpl. rewrite Heq. apply unlinked_Remove_self.
      * left. simpl. by apply elem_of_Remove.
    + right. simpl. by apply unlinked_Remove.
  - intros [Hk'|[Hk' Hn]].
    + destruct (decide (k' = k)) as [->|Hne].
      * right. simpl. rewrite lookup_delete_eq. split; [done|].
        assert (v' = value) as -> by congruence. apply unlinked_Remove_self.
      * left. simpl. by rewrite lookup_delete_ne.
    + right. simpl. split; [|by apply unlinked_Remove].
      apply lookup_delete_None. by right.
Qed.

(** One critical section of a caller of [Get] or [Delete], whatever
    the other callers hold. *)
Lemma caller_step_safe (g : caller) (c : LRUCache) :
  wf c → ¬ setter g → local_ok c g →
  ∃ g' c', caller_step g c = Some (g', c') ∧ wf c' ∧
           ¬ setter g' ∧ local_ok c' g' ∧
           ∀ h, local_ok c h → local_ok c' h.
Proof.
  intros Hwf Hns Hok. pose proof Hwf as [Hc Ha].
  destruct g as [[k|k v now|k]|value|k v now|k value|]; simpl in *;
    try done.
  - destruct (values c !! k) as [value|] eqn:Hk.
    + eexists _, _. split; [done|]. split_and!; try done; auto.
      left. apply (corr_store c Hc k value Hk).
    + eexists _, _. split; [done|]. split_and!; try done; auto.
  - destruct (values c !! k) as [value|] eqn:Hk.
    + eexists _, _. split; [done|]. split_and!; try done; auto.
      by left.
    + eexists _, _. split; [done|]. split_and!; try done; auto.
  - assert (MoveToFront (link value) (queue c) ≡ₚ queue c) as Hperm.
    { destruct Hok as [Hin|Hn].
      - apply MoveToFront_Permutation; [apply (corr_nodup c Hc)|done].
      - by rewrite MoveToFront_unlinked. }
    eexists _, _. split; [done|]. split_and!; try done.
    + by apply (wf_same_links c).
    + intros h. by apply local_ok_same.
  - destruct Hok as [Hk|[Hk Hn]].
    + eexists _, _. split; [done|]. split_and!; try done.
      * by apply wf_notify, wf_unsafeDelete.
      * intros h. by apply (local_ok_unsafeDelete c k value h).
    + assert (queue (notify 1 (unsafeDelete k value c)) ≡ₚ queue c) as Hq.
      { simpl. by rewrite Remove_not_in. }
      assert (values (notify 1 (unsafeDelete k value c)) = values c) as Hv.
      { simpl. by apply delete_id. }
      eexists _, _. split; [done|]. split_and!; try done.
      * apply (wf_same_links c); [done|done|done|]. intros k'. by rewrite Hv.
      * intros h. by apply local_ok_same.
  - eexists _, _. split; [done|]. split_and!; try done; auto.
Qed.

Lemma run_schedule_safe (sched : list nat) (gs : list caller)
    (c : LRUCache) :
  wf c → Forall (λ g, ¬ setter g ∧ local_ok c g) gs →
  Forall (λ i, (i < length gs)%nat) sched →
  ∃ gs' c', run_schedule sched gs c = Some (gs', c') ∧ wf c'.
Proof.
  revert gs c. induction sched as [|i sched IH]; intros gs c Hwf Hgs Hsched.
  - simpl. eauto.
  - apply Forall_cons in Hsched as [Hi Hsched].
    destruct (lookup_lt_is_Some_2 gs i Hi) as [g Hg].
    destruct (Forall_lookup_1 _ _ _ _ Hgs Hg) as [Hns Hok].
    destruct (caller_step_safe g c Hwf Hns Hok)
      as (g' & c' & Hs & Hwf' & Hns' & Hok' & Hothers).
    simpl. rewrite Hg. simpl. rewrite Hs. simpl.
    apply IH; [done| |by rewrite length_insert].
    apply Forall_insert; [|done].
    eapply Forall_impl; [exact Hgs|]. intros h [Hh1 Hh2]. auto.
Qed.

(** X9.  [Get] and [Delete] are safe under every interleaving.  From a
    state in which the store and the queue correspond, callers of
    [Get] and of [Delete], in any number and taking the lock in any
    order, never panic and leave a state in which the store and the
    queue correspond: a [Get] that promotes a node another caller has
    removed in between does nothing, and so does a [Delete] of an entry
    that is already gone. *)
Theorem Get_and_Delete_callers_keep_correspondence (sched : list nat)
    (gs : list caller) (c : LRUCache) :
  store_queue_corr c → alloc_ok c →
  Forall about_to_Get_or_Delete gs →
  Forall (λ i, (i < length gs)%nat) sched →
  ∃ gs' c', run_schedule sched gs c = Some (gs', c') ∧
            store_queue_corr c' ∧ alloc_ok c' ∧
            Size c' = Z.of_nat (size (values c')).
Proof.
  intros Hc Ha Hgs Hsched.
  destruct (run_schedule_safe sched gs c (conj Hc Ha)) as (gs' & c' & Hr & Hwf').
  - eapply Forall_impl; [exact Hgs|].
    intros [[k|k v now|k]| | | |]; simpl; try done; by intros _; split; [intros []|].
  - done.
  - exists gs', c'. destruct Hwf' as [Hc' Ha'].
    split_and!; try done. by apply corr_Size.
Qed.

(** X10.  Two callers that [Delete] the same stored key, each running
    its lookup before the other deletes, both call the callback with
    count 1, although one entry was removed. *)
Theorem concurrent_Deletes_notify_twice (c : LRUCache) (k : K)
    (cv : cacheValue) :
  values c !! k = Some cv →
  ∃ c', run_schedule [0; 1; 0; 1]%nat
          [Ready (CallDelete k); Ready (CallDelete k)] c
          = Some ([Returned; Returned], c') ∧
        values c' = delete k (values c) ∧
        S (size (values c')) = size (values c) ∧
        callback_log c'
          = if deleteCallback c then callback_log c ++ [1; 1]
            else callback_log c.
Proof.
  intros Hk. simpl. rewrite Hk. simpl. rewrite Hk. simpl.
  eexists. split; [reflexivity|]. simpl. split_and!.
  - apply delete_delete_eq.
  - rewrite delete_delete_eq, map_size_delete_Some; [|by rewrite Hk; eauto].
    enough (size (values c) ≠ 0%nat) by lia.
    intros Hz%map_size_empty_inv. by rewrite Hz, lookup_empty in Hk.
  - destruct (deleteCallback c); [|done]. by rewrite <- app_assoc.
Qed.

(** ** The HTTP handlers *)

Section HandlerProperties.

Variable string_key : string → K.
Variable nil_value : V.

(** X11.  [HandlerGet] answers 400 when the parameter [key] is empty
    or missing, and does not touch the cache then.  Otherwise it
    answers 201, also when the key is not stored: the body is then the
    nil value, so that a key that is not stored and a key that stores
    nil get the same answer.  It never changes what is stored and
    never calls the callback. *)
Theorem HandlerGet_answers (q : string) (c : LRUCache) :
  (q = EmptyString →
   HandlerGet string_key nil_value q c
     = (http_Error "Key not provided" StatusBadRequest, c)) ∧
  (q ≠ EmptyString →
   status (HandlerGet string_key nil_value q c).1 = StatusCreated ∧
   (values c !! string_key q = None →
    sent (HandlerGet string_key nil_value q c).1 = JsonValue nil_value) ∧
   (∀ cv, values c !! string_key q = Some cv →
    sent (HandlerGet string_key nil_value q c).1 = JsonValue (data cv)) ∧
   (∀ c2 cv2, values c !! string_key q = None →
    values c2 !! string_key q = Some cv2 → data cv2 = nil_value →
    (HandlerGet string_key nil_value q c).1
      = (HandlerGet string_key nil_value q c2).1)) ∧
  values (HandlerGet string_key nil_value q c).2 = values c ∧
  callback_log (HandlerGet string_key nil_value q c).2 = callback_log c.
Proof.
  unfold HandlerGet. split_and!.
  - intros ->. by rewrite decide_True.
  - intros Hq. rewrite decide_False by done. simpl. split_and!.
    + done.
    + intros Hk. by rewrite Get_result, Hk.
    + intros cv Hk. by rewrite Get_result, Hk.
    + intros c2 cv2 Hk Hk2 Hd. rewrite decide_False by done. simpl.
      by rewrite !Get_result, Hk, Hk2, <- Hd.
  - destruct (decide _); simpl; [done|apply Get_values].
  - destruct (decide _); simpl; [done|].
    unfold Get. by destruct (values c !! _).
Qed.

(** X12.  [HandlerSet] answers 400 and leaves the cache alone when the
    body does not decode.  When it decodes, with a key that can be a
    map key, and the store and the queue correspond, the handler does
    not panic and answers 201 with the decoded key and value, whether
    or not the cache has room to keep the entry.  With room for one
    entry, a [HandlerGet] of a non-empty string key that follows a
    [HandlerSet] of it answers 201 with the value set. *)
Theorem HandlerSet_then_HandlerGet (c : LRUCache) (k : K) (s : string)
    (v : V) (now : Z) :
  store_queue_corr c → alloc_ok c →
  HandlerSet DecodeFailed now c
    = Some (http_Error "Invalid JSON payload" StatusBadRequest, c) ∧
  (∃ c', Set_ k v now c = Some c' ∧
         HandlerSet (Decoded (Hashable k) v) now c
           = Some (respondWithJson StatusCreated (JsonKeyValue k v), c')) ∧
  (1 ≤ maxSize c → s ≠ EmptyString →
   ∃ r c', HandlerSet (Decoded (Hashable (string_key s)) v) now c
             = Some (r, c') ∧
           status r = StatusCreated ∧
           (HandlerGet string_key nil_value s c').1
             = respondWithJson StatusCreated (JsonValue v)).
Proof.
  intros Hc Ha. assert (wf c) as Hwf by done. split_and!.
  - done.
  - destruct (wf_Set k v now c Hwf) as (c' & Hs & _).
    exists c'. split; [done|]. simpl. by rewrite Hs.
  - intros Hm Hs.
    destruct (Set_stores c (string_key s) v now Hwf Hm)
      as (c' & cv & Hset & Hk & Hd & _).
    eexists _, c'. simpl. rewrite Hset. simpl. split; [done|].
    split; [done|]. unfold HandlerGet. rewrite decide_False by done.
    simpl. by rewrite Get_result, Hk, <- Hd.
Qed.

(** X13.  [HandlerSet] accepts keys that [HandlerGet] cannot ask for.
    An entry set under the empty string is stored, with a 201, but the
    request for it is refused with a 400; and whatever is stored under
    a key that is not a non-empty string (the empty string, a number,
    a bool, nil) has no effect on any answer of [HandlerGet]. *)
Theorem HandlerSet_accepts_keys_HandlerGet_refuses (c : LRUCache) (v : V)
    (now : Z) :
  store_queue_corr c → alloc_ok c → 1 ≤ maxSize c →
  (∃ r c' cv,
     HandlerSet (Decoded (Hashable (string_key EmptyString)) v) now c
       = Some (r, c') ∧
     status r = StatusCreated ∧
     values c' !! string_key EmptyString = Some cv ∧ data cv = v ∧
     status (HandlerGet string_key nil_value EmptyString c').1
       = StatusBadRequest) ∧
  (∀ k, (∀ s, s ≠ EmptyString → string_key s ≠ k) →
   ∀ q c1 c2, (∀ k', k' ≠ k → values c1 !! k' = values c2 !! k') →
     (HandlerGet string_key nil_value q c1).1
       = (HandlerGet string_key nil_value q c2).1).
Proof.
  intros Hc Ha Hm. split.
  - destruct (Set_stores c (string_key EmptyString) v now (conj Hc Ha) Hm)
      as (c' & cv & Hset & Hk & Hd & _).
    eexists _, c', cv. simpl. rewrite Hset. simpl. split_and!; try done.
  - intros k Hk q c1 c2 Hsame. unfold HandlerGet.
    destruct (decide (q = EmptyString)) as [|Hq]; [done|]. simpl.
    rewrite !Get_result, Hsame; [done|]. by apply Hk.
Qed.

End HandlerProperties.

(** ** The order of the queue *)

Lemma StronglySorted_lookup_lt {A} (R : relation A) (l : list A)
    (i j : nat) (a b : A) :
  StronglySorted R l → l !! i = Some a → l !! j = Some b → (i < j)%nat →
  R a b.
Proof.
  revert i j. induction l as [|x l IH]; intros i j Hs Hi Hj Hlt; [done|].
  apply StronglySorted_cons in Hs as [Hx Hl].
  destruct j as [|j]; [lia|]. simpl in Hj. destruct i as [|i].
  - injection Hi as <-. apply (proj1 (Forall_forall _ _) Hx).
    by apply list_elem_of_lookup_2 in Hj.
  - simpl in Hi. apply (IH i j); [done|done|done|lia].
Qed.

(** X14.  In every state reached from a new cache, the queue runs from
    the most recently to the least recently touched key: of two nodes,
    the one nearer the front carries the key whose last [Get] or [Set]
    in the run is the later one. *)
Theorem queue_is_in_recency_order (config : ConfigBuilder) (tr : list op)
    (c : LRUCache) (i j : nat) (a b : Element) :
  run tr (NewLRUCache config) = Some c →
  queue c !! i = Some a → queue c !! j = Some b → (i < j)%nat →
  ∃ ta tb, last_touch (key_of a) tr = Some ta ∧
           last_touch (key_of b) tr = Some tb ∧ (tb < ta)%nat.
Proof.
  intros Hr Hi Hj Hlt. destruct (run_recency config tr c Hr) as [Hs _].
  apply (StronglySorted_lookup_lt (more_recent tr) (queue c) i j a b);
    done.
Qed.

(** X15.  Entries set under keys that differ leave the cache in the
    order they came in.  After a new cache has been set the entries of
    [l], whose keys are distinct, its queue holds the keys of the last
    [maxSize] of them, the last one set at the front, and these are
    the keys stored; for a capacity that is not positive it holds
    none. *)
Theorem distinct_inserts_keep_the_last (config : ConfigBuilder)
    (l : list (K * V * Z)) :
  NoDup (keys_of l) →
  ∃ c, run (inserts l) (NewLRUCache config) = Some c ∧
       key_of <$> queue c
         = take (Z.to_nat (b_maxSize config)) (reverse (keys_of l)) ∧
       ∀ k, is_Some (values c !! k) ↔
            k ∈ take (Z.to_nat (b_maxSize config)) (reverse (keys_of l)).
Proof.
  intros Hnd.
  assert (∃ c, run (inserts l) (NewLRUCache config) = Some c ∧
               key_of <$> queue c
                 = take (Z.to_nat (b_maxSize config)) (reverse (keys_of l)))
    as (c & Hr & Hq).
  { induction l as [|[[k v] t] l IH] using rev_ind.
    - eexists. split; [done|]. simpl. by destruct (Z.to_nat _).
    - unfold keys_of in Hnd. rewrite fmap_app in Hnd. simpl in Hnd.
      apply NoDup_app in Hnd as (Hnd & Hfresh & _).
      destruct (IH Hnd) as (c0 & Hr0 & Hq0). clear IH.
      destruct (run_invariant config _ c0 Hr0) as (Hwf & _ & Hm & _).
      pose proof Hwf as [Hc _].
      assert (values c0 !! k = None) as Hk.
      { destruct (values c0 !! k) as [cv|] eqn:Hk; [|done]. exfalso.
        assert (k ∈ key_of <$> queue c0) as Hin
          by (apply corr_key_in_queue; eauto).
        rewrite Hq0 in Hin. apply (Hfresh k); [|left].
        apply elem_of_reverse.
        apply (elem_of_sublist _ _ _ Hin), sublist_take. }
      unfold inserts, keys_of. rewrite !fmap_app. simpl.
      rewrite run_snoc. fold (inserts l). rewrite Hr0. simpl.
      rewrite reverse_snoc. fold (keys_of l).
      unfold Set_. rewrite Set_update_absent by done.
      set (n := Z.to_nat (b_maxSize config)) in *.
      set (R := reverse (keys_of l)) in *.
      assert (length (queue c0) = length (take n R)) as Hlen.
      { by rewrite <- Hq0, length_fmap. }
      rewrite length_take in Hlen.
      destruct (decide (maxSize c0 < Z.of_nat (S (length (queue c0)))))
        as [Hlt|Hge].
      + destruct (Set_insert_evicts k v t c0 Hwf Hk Hlt)
          as (q & item & cv & Hpq & _ & _ & -> & Hq' & _).
        eexists. split; [done|]. rewrite Hq'.
        simpl in Hpq. apply (f_equal (fmap key_of)) in Hpq.
        rewrite fmap_cons, fmap_app, Hq0 in Hpq. simpl in Hpq.
        unfold key_of at 1 in Hpq. simpl in Hpq.
        assert (length (key_of <$> q) = n) as Hlq.
        { apply (f_equal length) in Hpq.
          rewrite length_app, length_cons, length_take in Hpq. simpl in Hpq.
          rewrite length_fmap in *. lia. }
        rewrite <- (take_app_length (key_of <$> q) [key_of item]).
        rewrite Hlq, <- Hpq. destruct n as [|n]; [done|]. simpl.
        by rewrite take_take, Nat.min_l by lia.
      + rewrite Set_insert_fits by lia. eexists. split; [done|].
        cbn [queue pushed alloc with_store]. rewrite fmap_cons, Hq0.
        unfold key_of at 1. simpl.
        assert (S (length (queue c0)) ≤ n)%nat as Hn by (unfold n; lia).
        clearbody n. destruct n as [|n]; [lia|]. simpl. f_equal.
        rewrite !take_ge; [done|lia|lia]. }
  exists c. split; [done|]. split; [done|]. intros k.
  destruct (run_invariant config _ c Hr) as ([Hc _] & _).
  by rewrite <- Hq, corr_key_in_queue.
Qed.

(** X16.  A key that has just been read survives the next [Set].  On
    a state in which the store and the queue correspond and that holds
    at least two entries, after [Get] of a stored key a [Set] of
    another key returns and leaves the key that was read stored, with
    its value and its node. *)
Theorem key_just_read_survives_next_Set (c : LRUCache) (k k' : K)
    (cv : cacheValue) (v : V) (now : Z) :
  store_queue_corr c → alloc_ok c →
  values c !! k = Some cv → k' ≠ k → 2 ≤ Size c →
  ∃ c', Set_ k' v now (Get k c).2 = Some c' ∧ values c' !! k = Some cv.
Proof.
  intros Hc Ha Hk Hne Hsz.
  pose proof (wf_Get k c (conj Hc Ha)) as Hwf1.
  pose proof (Get_values k c) as Hv1.
  destruct (corr_store c Hc k cv Hk) as [Hin Hkey].
  apply list_elem_of_split in Hin as (l1 & l2 & Hq).
  assert (queue (Get k c).2 = link cv :: l1 ++ l2) as Hq1.
  { unfold Get. rewrite Hk. simpl. rewrite Hq.
    apply MoveToFront_split. rewrite <- Hq. apply (corr_nodup c Hc). }
  unfold Set_, Set_update. rewrite Hv1.
  destruct (values c !! k') as [old|] eqn:Hk'.
  - eexists. split; [done|]. simpl. by rewrite lookup_insert_ne.
  - assert (values (Get k c).2 !! k' = None) as Hk1 by (by rewrite Hv1).
    destruct (decide (maxSize (Get k c).2
                      < Z.of_nat (S (length (queue (Get k c).2)))))
      as [Hlt|Hge].
    + destruct (Set_insert_evicts k' v now _ Hwf1 Hk1 Hlt)
        as (q & item & cvi & Hpq & _ & _ & -> & _ & Hv').
      eexists. split; [done|]. rewrite Hv'.
      assert (item ∈ l1 ++ l2) as Hitem.
      { apply (f_equal last) in Hpq. rewrite last_snoc in Hpq.
        cbn [queue pushed alloc with_store] in Hpq. rewrite Hq1 in Hpq.
        destruct (l1 ++ l2) as [|y r] eqn:Hl.
        - unfold Size in Hsz. rewrite Hq, length_app in Hsz. simpl in Hsz.
          apply (f_equal length) in Hl. rewrite length_app in Hl.
          simpl in Hl. lia.
        - rewrite !last_cons_cons in Hpq. by apply last_Some_elem_of. }
      rewrite lookup_delete_ne.
      * cbn [values pushed alloc with_store].
        by rewrite lookup_insert_ne, Hv1.
      * rewrite <- Hkey. by apply (corr_other_keys c l1 l2 (link cv) item).
    + rewrite Set_insert_fits by lia. eexists. split; [done|].
      cbn [values pushed alloc with_store]. by rewrite lookup_insert_ne, Hv1.
Qed.

End LRU.








Arguments LRUCache K {_ _} V.
Arguments op : clear implicits.

(** * Concrete runs

    Keys are strings and values integers.  The cache of the examples is
    built with [example_config]; [A] is inserted at time 0 and [B] at
    time 1. *)

Local Abbreviation cache0 := (NewLRUCache example_config : LRUCache string Z).
Local Abbreviation trA := ([OpSet "A" 1 0] : list (op string Z)).
Local Abbreviation trAB := ([OpSet "A" 1 0; OpSet "B" 2 1] : list (op string Z)).
Local Abbreviation cache_A := (state_after example_config trA).
Local Abbreviation cache_AB := (state_after example_config trAB).

Lemma run_trA : run trA cache0 = Some cache_A.
Proof. vm_compute. reflexivity. Qed.

Lemma run_trAB : run trAB cache0 = Some cache_AB.
Proof. vm_compute. reflexivity. Qed.

Lemma cache_AB_wf : wf cache_AB.
Proof. apply (run_invariant example_config trAB cache_AB run_trAB). Qed.

Lemma Set_within_capacity_witness :
  0 ≤ b_maxSize example_config ∧
  run trAB (NewLRUCache example_config) = Some cache_AB ∧
  ∃ c', Set_ "C" 3 2 cache_AB = Some c' ∧
        Z.of_nat (size (values c')) ≤ maxSize c' ∧ Size c' ≤ maxSize c'.
Proof.
  split; [by vm_compute|]. split; [exact run_trAB|].
  destruct (Set_within_capacity example_config trAB cache_AB "C" 3 2)
    as (c' & Hs & Hsz & HSz & _); [by vm_compute|exact run_trAB|].
  exists c'. done.
Defined.

Lemma eviction_is_least_recently_touched_witness :
  (∃ c, run [OpSet "A" 1 0; OpSet "B" 2 1; OpGet "A"; OpSet "C" 3 2]
            (NewLRUCache example_config) = Some c ∧
        values c !! "B" = None ∧
        (Get "A" c).1 = Some 1 ∧
        (Get "C" (Get "A" c).2).1 = Some 3 ∧
        (Get "B" (Get "C" (Get "A" c).2).2).1 = None) ∧
  (∃ te, last_touch "A" (trAB ++ [OpSet "C" 3 2]) = Some te ∧
     ∀ k', is_Some (values (written "C" 3 2 cache_AB) !! k') → k' ≠ "A" →
       ∃ t', last_touch k' (trAB ++ [OpSet "C" 3 2]) = Some t' ∧
             (te < t')%nat).
Proof.
  split.
  - apply (proj2 eviction_is_least_recently_touched
             example_config "A" "B" "C" 1 2 3 0 1 2); done.
  - apply (proj1 eviction_is_least_recently_touched
             example_config trAB cache_AB
             (default cache0 (Set_ "C" 3 2 cache_AB)) "C" 3 2 "A").
    + exact run_trAB.
    + vm_compute. reflexivity.
    + eexists. vm_compute. reflexivity.
    + vm_compute. reflexivity.
Defined.

Lemma expiry_is_enforced_by_the_sweep_witness :
  values cache0 !! "A" = None ∧
  Set_ "A" 1 0 cache0 = Some cache_A ∧
  (∀ now, (Get_at now "A" cache_A).1 = Some 1) ∧
  (Get_at 6 "A" (cleanInterval 6 cache_A)).1 = None ∧
  (Get_at 5 "A" (cleanInterval 5 cache_A)).1 = Some 1.
Proof.
  assert (values cache0 !! "A" = None) as H0 by (vm_compute; reflexivity).
  assert (Set_ "A" 1 0 cache0 = Some cache_A) as H1 by (vm_compute; reflexivity).
  assert (values cache_A !! "A"
          = Some {| data := 1;
                    link := {| eid := 0;
                               Value := {| key := "A"; ttl := 5 |} |} |})
    as H2 by (vm_compute; reflexivity).
  destruct (expiry_is_enforced_by_the_sweep cache0 cache_A "A" 1 0 _ H0 H1 H2)
    as (_ & Hget & Hafter & Hbefore).
  split_and!; [done|done|done| |].
  - apply Hafter. by vm_compute.
  - apply Hbefore. by vm_compute.
Defined.

(** C3 as stated fails: five ticks after its insertion at time 0 with a
    TTL of 5, and at any later time, the entry is still returned by
    [Get] as long as no pass of the sweeper has removed it. *)
Lemma Get_returns_entry_past_its_expiry :
  0 ≤ defaultTTL cache0 ∧
  Set_ "A" 1 0 cache0 = Some cache_A ∧
  0 + defaultTTL cache0 ≤ 5 ∧
  (Get_at 5 "A" cache_A).1 = Some 1 ∧
  (Get_at 1000 "A" cache_A).1 = Some 1.
Proof. vm_compute. split_and!; done. Qed.

Lemma sweep_removes_stale_and_notifies_once_witness :
  store_queue_corr cache_AB ∧
  values (cleanInterval 6 cache_AB)
    = filter (λ kv, ¬ ttl (Value (link kv.2)) < 6) (values cache_AB) ∧
  queue (cleanInterval 6 cache_AB)
    = filter (λ e, ¬ ttl (Value e) < 6) (queue cache_AB) ∧
  callback_log (cleanInterval 6 cache_AB) = [1] ∧
  size (values (cleanInterval 6 cache_AB)) = 1%nat.
Proof.
  pose proof cache_AB_wf as [Hc _]. split; [exact Hc|].
  destruct (sweep_removes_stale_and_notifies_once 6 cache_AB)
    as (Hv & Hlog & _ & Hq).
  split; [exact Hv|]. split; [exact (Hq Hc)|]. split; [|by vm_compute].
  rewrite Hlog. by vm_compute.
Defined.

(** C4 as stated fails: a pass at time 5 keeps the entry whose expiry
    time is 5, and reports no removal. *)
Lemma sweep_keeps_entry_expiring_now :
  (∃ cv, values cache_AB !! "A" = Some cv ∧ ttl (Value (link cv)) = 5) ∧
  (Get "A" (cleanInterval 5 cache_AB)).1 = Some 1 ∧
  Size (cleanInterval 5 cache_AB) = 2 ∧
  callback_log (cleanInterval 5 cache_AB) = [0].
Proof.
  split; [eexists; vm_compute; split; reflexivity|].
  vm_compute. split_and!; done.
Qed.

Lemma operations_preserve_correspondence_witness :
  store_queue_corr cache_AB ∧ alloc_ok cache_AB ∧
  ∃ c', step (OpSet "C" 3 2) cache_AB = Some c' ∧
        store_queue_corr c' ∧ Size c' = Z.of_nat (size (values c')).
Proof.
  pose proof cache_AB_wf as [Hc Ha]. split; [exact Hc|]. split; [exact Ha|].
  destruct (operations_preserve_correspondence (OpSet "C" 3 2) cache_AB Hc Ha)
    as (c' & Hs & Hc' & _ & _ & _ & HS).
  exists c'. done.
Defined.

Lemma Get_returns_latest_and_promotes_witness :
  run trAB (NewLRUCache example_config) = Some cache_AB ∧
  (∀ cv, values cache_AB !! "A" = Some cv →
         last_set "A" trAB = Some (data cv) ∧
         (Get "A" cache_AB).1 = Some (data cv)) ∧
  Get "Z" cache_AB = (None, cache_AB).
Proof.
  split; [exact run_trAB|].
  destruct (Get_returns_latest_and_promotes example_config trAB cache_AB "A"
              run_trAB) as [Hhit _].
  destruct (Get_returns_latest_and_promotes example_config trAB cache_AB "Z"
              run_trAB) as [_ Hmiss].
  split.
  - intros cv Hcv. destruct (Hhit cv Hcv) as (H1 & H2 & _). done.
  - apply Hmiss. vm_compute. reflexivity.
Defined.

Lemma Delete_removes_and_notifies_witness :
  values cache_AB !! "A"
    = Some {| data := 1;
              link := {| eid := 0; Value := {| key := "A"; ttl := 5 |} |} |} ∧
  store_queue_corr cache_AB ∧
  values (Delete "A" cache_AB) = delete "A" (values cache_AB) ∧
  callback_log (Delete "A" cache_AB) = [1] ∧
  nodes_of "A" (queue (Delete "A" cache_AB)) = [] ∧
  values cache_AB !! "Z" = None ∧
  Delete "Z" cache_AB = cache_AB.
Proof.
  pose proof cache_AB_wf as [Hc _].
  assert (values cache_AB !! "A"
          = Some {| data := 1;
                    link := {| eid := 0;
                               Value := {| key := "A"; ttl := 5 |} |} |})
    as Hk by (vm_compute; reflexivity).
  assert (values cache_AB !! "Z" = None) as Hz by (vm_compute; reflexivity).
  destruct (Delete_removes_and_notifies cache_AB "A") as [Hhit _].
  destruct (Delete_removes_and_notifies cache_AB "Z") as [_ Hmiss].
  destruct (Hhit _ Hk) as (H1 & _ & H2 & H3).
  destruct (H3 Hc) as [_ H4].
  split_and!; try done.
Defined.

Lemma Set_update_frame_witness :
  values cache_AB !! "A"
    = Some {| data := 1;
              link := {| eid := 0; Value := {| key := "A"; ttl := 5 |} |} |} ∧
  ∃ c', Set_ "A" 7 100 cache_AB = Some c' ∧
        values c' !! "A"
          = Some {| data := 7;
                    link := {| eid := 0;
                               Value := {| key := "A"; ttl := 5 |} |} |} ∧
        values c' !! "B" = values cache_AB !! "B" ∧
        key_of <$> queue c' = ["A"; "B"].
Proof.
  assert (values cache_AB !! "A"
          = Some {| data := 1;
                    link := {| eid := 0;
                               Value := {| key := "A"; ttl := 5 |} |} |})
    as Hk by (vm_compute; reflexivity).
  split; [exact Hk|].
  destruct (Set_update_frame cache_AB "A" _ 7 100 Hk)
    as (c' & Hs & Hv & _ & Hother & Hq & _).
  exists c'. split; [done|]. split; [done|]. split; [by apply Hother|].
  rewrite Hq. vm_compute. reflexivity.
Defined.

(** C9 fails on the code.  [Set] releases the lock between its lookup
    and its insertion.  Two callers that set the same new key, each
    running its lookup before the other inserts, both insert: the queue
    then holds two nodes for the one stored key, and [Size()] is 2 with
    one key stored. *)
Theorem concurrent_Set_breaks_correspondence :
  ∃ c, run_schedule [0; 1; 0; 1]%nat (two_setters "k" 1 2 0)
         (NewLRUCache main_config)
         = Some ([Returned; Returned], c) ∧
       size (values c) = 1%nat ∧
       length (nodes_of "k" (queue c)) = 2%nat ∧
       Size c = 2 ∧
       ¬ store_queue_corr c.
Proof.
  eexists. split; [vm_compute; reflexivity|].
  split; [by vm_compute|]. split; [by vm_compute|]. split; [by vm_compute|].
  intros Hc. apply corr_Size in Hc. vm_compute in Hc. discriminate.
Qed.

(** The same two callers, one after the other, keep the correspondence. *)
Lemma sequential_Set_keeps_correspondence :
  ∃ c, run_schedule [0; 0; 1; 1]%nat (two_setters "k" 1 2 0)
         (NewLRUCache main_config)
         = Some ([Returned; Returned], c) ∧
       size (values c) = 1%nat ∧
       length (nodes_of "k" (queue c)) = 1%nat ∧
       Size c = 1.
Proof.
  eexists. split; [vm_compute; reflexivity|]. by vm_compute.
Qed.

(** * Concrete runs for the further properties *)

Local Abbreviation cache_AB_updated :=
  (state_after example_config (trAB ++ [OpGet "A"; OpSet "A" 9 50])).

Lemma callback_is_called_by_Delete_and_sweep_only_witness :
  step (OpSet "C" 3 2) cache_AB
    = Some (state_after example_config (trAB ++ [OpSet "C" 3 2])) ∧
  values (state_after example_config (trAB ++ [OpSet "C" 3 2])) !! "A" = None ∧
  callback_log (state_after example_config (trAB ++ [OpSet "C" 3 2]))
    = callback_log cache_AB ++ [].
Proof.
  assert (step (OpSet "C" 3 2) cache_AB
          = Some (state_after example_config (trAB ++ [OpSet "C" 3 2])))
    as Hs by (vm_compute; reflexivity).
  split; [exact Hs|]. split; [vm_compute; reflexivity|].
  exact (callback_is_called_by_Delete_and_sweep_only _ _ _ Hs).
Defined.

Lemma Set_then_Get_witness :
  store_queue_corr cache_AB ∧ alloc_ok cache_AB ∧ 1 ≤ maxSize cache_AB ∧
  ∃ c', Set_ "C" 3 2 cache_AB = Some c' ∧ (Get "C" c').1 = Some 3.
Proof.
  pose proof cache_AB_wf as [Hc Ha].
  split; [exact Hc|]. split; [exact Ha|]. split; [by vm_compute|].
  destruct (Set_then_Get cache_AB "C" 3 2 Hc Ha) as (c' & Hs & Hg & _);
    [by vm_compute|].
  exists c'. done.
Defined.

Lemma cache_without_capacity_stores_nothing_witness :
  b_maxSize (SetMaxSize 0 Configuration) ≤ 0 ∧
  run trA (NewLRUCache (SetMaxSize 0 Configuration))
    = Some (state_after (SetMaxSize 0 Configuration) trA) ∧
  values (state_after (SetMaxSize 0 Configuration) trA) = ∅ ∧
  queue (state_after (SetMaxSize 0 Configuration) trA) = [].
Proof.
  assert (run trA (NewLRUCache (SetMaxSize 0 Configuration))
          = Some (state_after (SetMaxSize 0 Configuration) trA)) as Hr
    by (vm_compute; reflexivity).
  split; [by vm_compute|]. split; [exact Hr|].
  destruct (cache_without_capacity_stores_nothing
              (SetMaxSize 0 Configuration) trA
              (state_after (SetMaxSize 0 Configuration) trA))
    as (Hv & Hq & _); [by vm_compute|exact Hr|].
  done.
Defined.

Lemma sweep_passes_compose_witness :
  5 ≤ 7 ∧
  values (cleanInterval 7 (cleanInterval 5 cache_AB))
    = values (cleanInterval 7 cache_AB) ∧
  (stale_count 5 cache_AB + stale_count 7 (cleanInterval 5 cache_AB)
   = stale_count 7 cache_AB)%nat.
Proof.
  split; [by vm_compute|].
  destruct (sweep_passes_compose 5 7 cache_AB) as (Hv & Hn & _);
    [by vm_compute|].
  done.
Defined.

Lemma expiry_is_fixed_at_insertion_witness :
  run (trAB ++ [OpGet "A"; OpSet "A" 9 50]) (NewLRUCache example_config)
    = Some cache_AB_updated ∧
  values cache_AB_updated !! "A"
    = Some {| data := 9;
              link := {| eid := 0; Value := {| key := "A"; ttl := 5 |} |} |} ∧
  ∃ T, 5 = T + b_defaultTTL example_config.
Proof.
  assert (run (trAB ++ [OpGet "A"; OpSet "A" 9 50])
              (NewLRUCache example_config) = Some cache_AB_updated) as Hr
    by (vm_compute; reflexivity).
  assert (values cache_AB_updated !! "A"
          = Some {| data := 9;
                    link := {| eid := 0;
                               Value := {| key := "A"; ttl := 5 |} |} |})
    as Hk by (vm_compute; reflexivity).
  split; [exact Hr|]. split; [exact Hk|].
  destruct (expiry_is_fixed_at_insertion example_config _ _ "A" _ Hr Hk)
    as (tr1 & v & T & tr2 & c1 & _ & _ & _ & Httl & _).
  exists T. exact Httl.
Defined.

Lemma race_then_Set_panics_witness :
  b_maxSize (SetMaxSize 1 Configuration) = 1 ∧
  ∃ c : LRUCache string Z,
    run_schedule [0; 1; 0; 1]%nat (two_setters "k" 1 2 0)
      (NewLRUCache (SetMaxSize 1 Configuration))
      = Some ([Returned; Returned], c) ∧
    Set_ "j" 3 1 c = None.
Proof.
  split; [reflexivity|].
  destruct (race_then_Set_panics (SetMaxSize 1 Configuration)
              "k" "j" 1 2 3 0 1) as (c & Hr & _ & _ & Hp & _);
    [reflexivity|done|].
  exists c. done.
Defined.

Lemma Get_and_Delete_callers_keep_correspondence_witness :
  store_queue_corr cache_AB ∧ alloc_ok cache_AB ∧
  ∃ gs' c',
    run_schedule [0; 1; 1; 0]%nat
      [Ready (CallGet "A"); Ready (CallDelete "A")] cache_AB
      = Some (gs', c') ∧
    store_queue_corr c'.
Proof.
  pose proof cache_AB_wf as [Hc Ha]. split; [exact Hc|]. split; [exact Ha|].
  destruct (Get_and_Delete_callers_keep_correspondence [0; 1; 1; 0]%nat
              [Ready (CallGet "A"); Ready (CallDelete "A")] cache_AB Hc Ha)
    as (gs' & c' & Hr & Hc' & _).
  - repeat constructor.
  - repeat constructor.
  - exists gs', c'. done.
Defined.

Lemma concurrent_Deletes_notify_twice_witness :
  values cache_AB !! "A"
    = Some {| data := 1;
              link := {| eid := 0; Value := {| key := "A"; ttl := 5 |} |} |} ∧
  ∃ c', run_schedule [0; 1; 0; 1]%nat
          [Ready (CallDelete "A"); Ready (CallDelete "A")] cache_AB
          = Some ([Returned; Returned], c') ∧
        size (values c') = 1%nat ∧
        callback_log c' = [1; 1].
Proof.
  assert (values cache_AB !! "A"
          = Some {| data := 1;
                    link := {| eid := 0;
                               Value := {| key := "A"; ttl := 5 |} |} |})
    as Hk by (vm_compute; reflexivity).
  split; [exact Hk|].
  destruct (concurrent_Deletes_notify_twice cache_AB "A" _ Hk)
    as (c' & Hr & Hv & Hs & Hlog).
  exists c'. split; [done|]. split.
  - assert (size (values cache_AB) = 2%nat) as H2 by (vm_compute; reflexivity).
    lia.
  - rewrite Hlog. vm_compute. reflexivity.
Defined.

Lemma HandlerSet_then_HandlerGet_witness :
  store_queue_corr cache_AB ∧ alloc_ok cache_AB ∧ 1 ≤ maxSize cache_AB ∧
  ∃ r c', HandlerSet (Decoded (Hashable "C") 3) 2 cache_AB = Some (r, c') ∧
          status r = StatusCreated ∧
          (HandlerGet id 0 "C" c').1
            = respondWithJson StatusCreated (JsonValue 3).
Proof.
  pose proof cache_AB_wf as [Hc Ha].
  split; [exact Hc|]. split; [exact Ha|]. split; [by vm_compute|].
  destruct (HandlerSet_then_HandlerGet id 0 cache_AB "C" "C" 3 2 Hc Ha)
    as (_ & _ & Hround).
  apply Hround; [by vm_compute|done].
Defined.

Lemma HandlerSet_accepts_keys_HandlerGet_refuses_witness :
  store_queue_corr cache_AB ∧ alloc_ok cache_AB ∧ 1 ≤ maxSize cache_AB ∧
  ∃ r c' cv,
    HandlerSet (Decoded (Hashable EmptyString) 3) 2 cache_AB = Some (r, c') ∧
    status r = StatusCreated ∧
    values c' !! EmptyString = Some cv ∧ data cv = 3 ∧
    status (HandlerGet id 0 EmptyString c').1 = StatusBadRequest.
Proof.
  pose proof cache_AB_wf as [Hc Ha].
  split; [exact Hc|]. split; [exact Ha|]. split; [by vm_compute|].
  destruct (HandlerSet_accepts_keys_HandlerGet_refuses id 0 cache_AB 3 2
              Hc Ha) as [Hstored _]; [by vm_compute|].
  exact Hstored.
Defined.

Lemma queue_is_in_recency_order_witness :
  run trAB (NewLRUCache example_config) = Some cache_AB ∧
  queue cache_AB !! 0%nat
    = Some {| eid := 1; Value := {| key := "B"; ttl := 6 |} |} ∧
  queue cache_AB !! 1%nat
    = Some {| eid := 0; Value := {| key := "A"; ttl := 5 |} |} ∧
  ∃ ta tb, last_touch "B" trAB = Some ta ∧ last_touch "A" trAB = Some tb ∧
           (tb < ta)%nat.
Proof.
  split; [exact run_trAB|]. split; [vm_compute; reflexivity|].
  split; [vm_compute; reflexivity|].
  apply (queue_is_in_recency_order example_config trAB cache_AB 0 1
           {| eid := 1; Value := {| key := "B"; ttl := 6 |} |}
           {| eid := 0; Value := {| key := "A"; ttl := 5 |} |});
    [exact run_trAB|vm_compute; reflexivity|vm_compute; reflexivity|lia].
Defined.

Lemma distinct_inserts_keep_the_last_witness :
  NoDup (keys_of [("A", 1, 0); ("B", 2, 1); ("C", 3, 2)]) ∧
  ∃ c : LRUCache string Z,
    run (inserts [("A", 1, 0); ("B", 2, 1); ("C", 3, 2)])
        (NewLRUCache example_config) = Some c ∧
    key_of <$> queue c = ["C"; "B"].
Proof.
  assert (NoDup (keys_of [("A", 1, 0); ("B", 2, 1); ("C", 3, 2)])) as Hnd.
  { apply (bool_decide_unpack _). vm_compute. exact I. }
  split; [exact Hnd|].
  destruct (distinct_inserts_keep_the_last example_config
              [("A", 1, 0); ("B", 2, 1); ("C", 3, 2)] Hnd)
    as (c & Hr & Hq & _).
  exists c. split; [exact Hr|]. exact Hq.
Defined.

Lemma key_just_read_survives_next_Set_witness :
  store_queue_corr cache_AB ∧ alloc_ok cache_AB ∧
  values cache_AB !! "A"
    = Some {| data := 1;
              link := {| eid := 0; Value := {| key := "A"; ttl := 5 |} |} |} ∧
  2 ≤ Size cache_AB ∧
  ∃ c', Set_ "C" 3 2 (Get "A" cache_AB).2 = Some c' ∧
        values c' !! "A"
          = Some {| data := 1;
                    link := {| eid := 0;
                               Value := {| key := "A"; ttl := 5 |} |} |}.
Proof.
  pose proof cache_AB_wf as [Hc Ha].
  assert (values cache_AB !! "A"
          = Some {| data := 1;
                    link := {| eid := 0;
                               Value := {| key := "A"; ttl := 5 |} |} |})
    as Hk by (vm_compute; reflexivity).
  split; [exact Hc|]. split; [exact Ha|]. split; [exact Hk|].
  split; [by vm_compute|].
  apply (key_just_read_survives_next_Set cache_AB "A" "C" _ 3 2 Hc Ha Hk);
    [done|by vm_compute].
Defined.
